(** * Crow-tech mesh network: routing, retry, gossip, topology and lookup

    A shallow embedding of the messaging layer of the nests network
    (request/retry engine, request-type dispatch, gossip flooding,
    connection tables, breadth-first routing, distributed storage lookup),
    of the [Group] class and of [Promise_all], with the properties the
    design document states about them. *)

From Stdlib Require Import Ascii String List Arith ZArith Lia Bool Permutation.
From Stdlib Require Import DecimalString.
From Equations Require Import Equations.
Import ListNotations.

Local Open Scope string_scope.
Local Open Scope list_scope.

(** ** JavaScript values that travel through the network *)

(** Error objects: [new Timeout(msg)] and plain [new Error(msg)];
    [TypeError] is what the runtime raises on a call of a non-function. *)
Inductive error : Type :=
  | Timeout (msg : string)
  | Error (msg : string)
  | TypeError (msg : string).

(** The values that requests carry, handlers return and promises settle
    with.  [VRoute] is the object [{target, type, content}] and [VConn] the
    object [{name, neighbors}], whose [neighbors] is [undefined] when the
    sender's table has no entry for [name]. *)
Inductive value : Type :=
  | VUndefined
  | VNull
  | VBool (b : bool)
  | VNum (n : nat)
  | VStr (s : string)
  | VErr (e : error)
  | VRoute (target type : string) (content : value)
  | VConn (name : string) (neighbors : option (list string)).

(** [v != null] is false for [null] and for [undefined] only. *)
Definition not_nullish (v : value) : bool :=
  match v with
  | VUndefined | VNull => false
  | _ => true
  end.

(** JavaScript truthiness, as [if (v)], [!v] and [v || w] test it. *)
Definition truthy (v : value) : bool :=
  match v with
  | VUndefined | VNull => false
  | VBool b => b
  | VNum n => negb (Nat.eqb n 0)
  | VStr s => negb (String.eqb s "")
  | _ => true
  end.

(** ** The [Map] of a nest's connections

    A JavaScript [Map] from names to arrays of names, kept in insertion
    order: [set] on a present key replaces the value in place, on a new
    key it appends; [keys()] lists the keys in that order. *)
Definition jsmap : Type := list (string * list string).

Fixpoint map_get (m : jsmap) (k : string) : option (list string) :=
  match m with
  | [] => None
  | (k', v) :: m' => if String.eqb k' k then Some v else map_get m' k
  end.

Fixpoint map_set (m : jsmap) (k : string) (v : list string) : jsmap :=
  match m with
  | [] => [(k, v)]
  | (k', v') :: m' =>
      if String.eqb k' k then (k, v) :: m' else (k', v') :: map_set m' k v
  end.

Definition map_keys (m : jsmap) : list string := map fst m.

(** ** Promises and results of calls *)

(** The state of a promise that settles with an [A]. *)
Inductive promise (A : Type) : Type :=
  | Pending
  | Fulfilled (a : A)
  | Rejected (reason : value).
Arguments Pending {A}.
Arguments Fulfilled {A} a.
Arguments Rejected {A} reason.

(** What a call gives back: a returned value or a thrown exception. *)
Inductive result (A : Type) : Type :=
  | Return (a : A)
  | Throw (exn : value).
Arguments Return {A} a.
Arguments Throw {A} exn.

(** The promise that a [then] callback's result resolves the derived
    promise with: a returned promise is adopted, a throw rejects. *)
Definition settle {A : Type} (r : result (promise A)) : promise A :=
  match r with
  | Return p => p
  | Throw exn => Rejected exn
  end.

(** [p.then(onFulfilled, onRejected)]; [onRejected] may be left out. *)
Definition then_ {A B : Type} (p : promise A)
    (onFulfilled : A -> result (promise B))
    (onRejected : option (value -> result (promise B))) : promise B :=
  match p with
  | Pending => Pending
  | Fulfilled a => settle (onFulfilled a)
  | Rejected reason =>
      match onRejected with
      | Some h => settle (h reason)
      | None => Rejected reason
      end
  end.

(** ** Nests *)

Record nest_state : Type := NestState {
  gossip : list string;
  connections : jsmap
}.

(** A nest as the messaging layer sees it: [readStorage] is the value the
    nest's own store calls back with for a key. *)
Record nest : Type := Nest {
  name : string;
  neighbors : list string;
  state : nest_state;
  readStorage : string -> value
}.

Definition set_gossip (n : nest) (g : list string) : nest :=
  Nest (name n) (neighbors n) (NestState g (connections (state n))) (readStorage n).

Definition set_connections (n : nest) (c : jsmap) : nest :=
  Nest (name n) (neighbors n) (NestState (gossip (state n)) c) (readStorage n).

(** [array.includes(x)] on an array of strings. *)
Definition includes (l : list string) (x : string) : bool :=
  existsb (fun y => String.eqb y x) l.

(** [a == b] for a name [a] and a [b] that is a name or [null]. *)
Definition loose_eq (a : string) (b : option string) : bool :=
  match b with
  | Some b' => String.eqb a b'
  | None => false
  end.

(** ** Request/Retry Engine: [request] *)

(** One call [request(nest, target, type, content)]. *)
Record request_call : Type := RequestCall {
  rc_nest : string;
  rc_target : string;
  rc_type : string;
  rc_content : value
}.

(** What the transport does with the [k]-th [nest.send] of a call: [None]
    when it never invokes the callback, [Some (d, failed, v)] when it
    invokes [callback(failed, v)] after [d] time units. *)
Definition transport : Type := request_call -> nat -> option (nat * value * value).

Inductive event : Type :=
  | TimerFires (n : nat)
  | CallbackArrives (failed v : value).

(** The state of one call: the clock, the [done] flag, the promise, the
    sends so far (the time and what was sent) and the pending events,
    earliest first. *)
Record engine : Type := Engine {
  now : nat;
  done : bool;
  outcome : promise value;
  sent : list (nat * request_call);
  queue : list (nat * event)
}.

(** An event scheduled for time [t] runs after those already scheduled for
    [t] or earlier. *)
Fixpoint schedule (t : nat) (e : event) (q : list (nat * event))
    : list (nat * event) :=
  match q with
  | [] => [(t, e)]
  | (t', e') :: q' =>
      if Nat.leb t' t then (t', e') :: schedule t e q' else (t, e) :: q
  end.

(** [resolve] and [reject] of a promise do nothing once it is settled. *)
Definition resolve (p : promise value) (v : value) : promise value :=
  match p with
  | Pending => Fulfilled v
  | _ => p
  end.

Definition reject (p : promise value) (reason : value) : promise value :=
  match p with
  | Pending => Rejected reason
  | _ => p
  end.

(** The retry interval of [setTimeout(..., 250)]. *)
Definition retry_interval : nat := 250.

(** [attempt(n)]: one [nest.send] and one timer. *)
Definition attempt (tr : transport) (rc : request_call) (n : nat)
    (st : engine) : engine :=
  let q :=
    match tr rc n with
    | Some (d, failed, v) => schedule (now st + d) (CallbackArrives failed v) (queue st)
    | None => queue st
    end in
  Engine (now st) (done st) (outcome st) (sent st ++ [(now st, rc)])
    (schedule (now st + retry_interval) (TimerFires n) q).

(** The body of the callback given to [nest.send] and of the function
    given to [setTimeout]. *)
Definition run_event (tr : transport) (rc : request_call) (e : event)
    (st : engine) : engine :=
  match e with
  | CallbackArrives failed v =>
      Engine (now st) true
        (if truthy failed then reject (outcome st) failed
         else resolve (outcome st) v)
        (sent st) (queue st)
  | TimerFires n =>
      if done st then st
      else if Nat.ltb n 3 then attempt tr rc (n + 1) st
      else Engine (now st) (done st)
             (reject (outcome st) (VErr (Timeout "Timed out")))
             (sent st) (queue st)
  end.

(** The event loop: the earliest pending event runs, until none is left. *)
Fixpoint run (fuel : nat) (tr : transport) (rc : request_call) (st : engine)
    : engine :=
  match fuel with
  | O => st
  | S fuel' =>
      match queue st with
      | [] => st
      | (t, e) :: q' =>
          run fuel' tr rc
            (run_event tr rc e (Engine t (done st) (outcome st) (sent st) q'))
      end
  end.

(** The call [rc] of [request] run against a transport: [attempt(1)] at
    time 0, then at most [fuel] events. *)
Definition request_run (fuel : nat) (tr : transport) (rc : request_call)
    : engine :=
  run fuel tr rc (attempt tr rc 1 (Engine 0 false Pending [] [])).

(** A call of [request] from a nest, as the rest of the program sees it. *)
Definition request (n : nest) (target type : string) (content : value)
    : request_call :=
  RequestCall (name n) target type content.

(** ** Dispatcher: [requestType] *)

(** What a handler returns: a plain value or a promise. *)
Inductive returned : Type :=
  | Plain (v : value)
  | Promised (p : promise value).

(** A handler called on a nest, a content and a source name returns or
    raises. *)
Definition handler : Type := nest -> value -> string -> result returned.

(** One invocation [callback(failed, value)]. *)
Inductive callback_call : Type :=
  | Callback (failed v : value).

(** [callback(null, response)] and [callback(failure)]. *)
Definition success (response : value) : callback_call := Callback VNull response.
Definition failure (reason : value) : callback_call := Callback reason VUndefined.

(** [Promise.resolve(x)]: a promise is kept, a plain value is wrapped. *)
Definition Promise_resolve (r : returned) : promise value :=
  match r with
  | Plain v => Fulfilled v
  | Promised p => p
  end.

(** [p.then(response => callback(null, response),
            failure => callback(failure))]: the invocation of [callback]
    it leads to, none while [p] is pending. *)
Definition then_callback (p : promise value) : option callback_call :=
  match p with
  | Pending => None
  | Fulfilled response => Some (success response)
  | Rejected reason => Some (failure reason)
  end.

(** The function [requestType] hands to [defineRequestType]: [try] the
    handler and chain on its result, [catch] what it raises. *)
Definition requestType (h : handler) (n : nest) (content : value)
    (source : string) : option callback_call :=
  match h n content source with
  | Return r => then_callback (Promise_resolve r)
  | Throw exception => Some (failure exception)
  end.

(** [requestType("ping", () => "pong")] *)
Definition ping_handler : handler := fun _ _ _ => Return (Plain (VStr "pong")).

(** ** Gossip Service *)

(** What a handler does to the outside: calls of [request] whose promise is
    dropped, and lines on the console. *)
Inductive effect : Type :=
  | Requested (rc : request_call)
  | Logged (line : string).

(** The [for (let neighbor of nest.neighbors)] loop shared by
    [sendGossip] and [broadcastConnections]. *)
Definition to_neighbors (n : nest) (exceptFor : option string)
    (type : string) (content : value) : list effect :=
  flat_map (fun neighbor =>
              if loose_eq neighbor exceptFor then []
              else [Requested (request n neighbor type content)])
           (neighbors n).

Definition sendGossip (n : nest) (message : string) (exceptFor : option string)
    : nest * list effect :=
  (set_gossip n (gossip (state n) ++ [message]),
   to_neighbors n exceptFor "gossip" (VStr message)).

(** The handler of ["gossip"]. *)
Definition gossip_handler (n : nest) (message source : string)
    : nest * list effect :=
  if includes (gossip (state n)) message then (n, [])
  else
    let '(n', sends) := sendGossip n message (Some source) in
    (n', Logged (name n ++ " received gossip '" ++ message ++ "' from " ++ source)
           :: sends).

(** A nest handling a sequence of ["gossip"] requests [(message, source)]. *)
Fixpoint gossip_run (n : nest) (deliveries : list (string * string))
    : nest * list effect :=
  match deliveries with
  | [] => (n, [])
  | (message, source) :: rest =>
      let '(n1, e1) := gossip_handler n message source in
      let '(n2, e2) := gossip_run n1 rest in
      (n2, e1 ++ e2)
  end.

(** Is the effect a ["gossip"] request carrying [message] to [neighbor]? *)
Definition is_gossip_to (neighbor message : string) (e : effect) : bool :=
  match e with
  | Requested (RequestCall _ target type (VStr m)) =>
      String.eqb target neighbor && String.eqb type "gossip" && String.eqb m message
  | _ => false
  end.

(** The number of ["gossip"] requests for [message] to [neighbor] among
    the effects. *)
Definition gossip_count (neighbor message : string) (effects : list effect) : nat :=
  length (List.filter (is_gossip_to neighbor message) effects).

(** ** Topology Service *)

Definition dquote : ascii := ascii_of_nat 34.
Definition backslash : ascii := ascii_of_nat 92.

Definition hex_digit (n : nat) : ascii :=
  match n with
  | 0 => "0" | 1 => "1" | 2 => "2" | 3 => "3" | 4 => "4" | 5 => "5"
  | 6 => "6" | 7 => "7" | 8 => "8" | 9 => "9" | 10 => "a" | 11 => "b"
  | 12 => "c" | 13 => "d" | 14 => "e" | _ => "f"
  end%char.

(** [JSON.stringify] of one character of a string, written before [rest]:
    the quote and the backslash are escaped, the control characters below
    32 get their short escape or [\u00XX]. *)
Definition escape_char (c : ascii) (rest : string) : string :=
  let n := nat_of_ascii c in
  if Nat.eqb n 34 then String backslash (String dquote rest)
  else if Nat.eqb n 92 then String backslash (String backslash rest)
  else if Nat.eqb n 8 then String backslash (String "b" rest)
  else if Nat.eqb n 12 then String backslash (String "f" rest)
  else if Nat.eqb n 10 then String backslash (String "n" rest)
  else if Nat.eqb n 13 then String backslash (String "r" rest)
  else if Nat.eqb n 9 then String backslash (String "t" rest)
  else if Nat.ltb n 32 then
    String backslash (String "u" (String "0" (String "0"
      (String (hex_digit (n / 16)) (String (hex_digit (n mod 16)) rest)))))
  else String c rest.

Fixpoint escape (s : string) (rest : string) : string :=
  match s with
  | EmptyString => rest
  | String c s' => escape_char c (escape s' rest)
  end.

(** A string between quotes, written before [rest]. *)
Definition quote (s : string) (rest : string) : string :=
  String dquote (escape s (String dquote rest)).

(** The elements of an array, separated by commas, written before [rest]. *)
Fixpoint stringify_items (l : list string) (rest : string) : string :=
  match l with
  | [] => rest
  | [x] => quote x rest
  | x :: l' => quote x (String "," (stringify_items l' rest))
  end.

(** [JSON.stringify(x)] for [x] an array of strings or [undefined]; of
    [undefined] it is [undefined]. *)
Definition JSON_stringify (x : option (list string)) : option string :=
  match x with
  | Some l => Some (String "[" (stringify_items l "]"))
  | None => None
  end.

(** [a == b] for two results of [JSON.stringify]. *)
Definition stringified_eq (a b : option string) : bool :=
  match a, b with
  | Some x, Some y => String.eqb x y
  | None, None => true
  | _, _ => false
  end.

Definition unhex (c : ascii) : nat :=
  let n := nat_of_ascii c in
  if Nat.ltb n 58 then n - 48 else n - 87.

(** Reads one character of a string back from the front of its
    [JSON.stringify] text; nothing at a closing quote. *)
Definition unescape_char (s : string) : option (ascii * string) :=
  match s with
  | EmptyString => None
  | String c rest =>
      if Ascii.eqb c dquote then None
      else if Ascii.eqb c backslash then
        match rest with
        | EmptyString => None
        | String x rest' =>
            if Ascii.eqb x "u" then
              match rest' with
              | String _ (String _ (String h (String l r))) =>
                  Some (ascii_of_nat (16 * unhex h + unhex l), r)
              | _ => None
              end
            else if Ascii.eqb x "b" then Some (ascii_of_nat 8, rest')
            else if Ascii.eqb x "f" then Some (ascii_of_nat 12, rest')
            else if Ascii.eqb x "n" then Some (ascii_of_nat 10, rest')
            else if Ascii.eqb x "r" then Some (ascii_of_nat 13, rest')
            else if Ascii.eqb x "t" then Some (ascii_of_nat 9, rest')
            else Some (x, rest')
        end
      else Some (c, rest)
  end.

Definition broadcastConnections (n : nest) (name0 : string)
    (exceptFor : option string) : list effect :=
  to_neighbors n exceptFor "connections"
    (VConn name0 (map_get (connections (state n)) name0)).

(** The handler of ["connections"], for the content [{name, neighbors}]. *)
Definition connections_handler (n : nest) (name0 : string)
    (neighbors0 : list string) (source : string) : nest * list effect :=
  if stringified_eq (JSON_stringify (map_get (connections (state n)) name0))
                    (JSON_stringify (Some neighbors0))
  then (n, [])
  else
    let n' := set_connections n (map_set (connections (state n)) name0 neighbors0) in
    (n', broadcastConnections n' name0 (Some source)).

(** ** Router: [findRoute] *)

(** An entry of the work list: [{at, via}], [via] being [null] or a name. *)
Record work_item : Type := WorkItem { at_ : string; via : option string }.

(** [connections.get(at) || []]: an array is always truthy, so the
    default is taken exactly when the key is absent. *)
Definition neighbours_of (connections : jsmap) (at0 : string) : list string :=
  match map_get connections at0 with
  | Some l => l
  | None => []
  end.

(** [via || next]: [via] when it is a non-empty name, [next] when it is
    [null] or the empty string. *)
Definition via_or (via0 : option string) (next : string) : option string :=
  match via0 with
  | Some v => if String.eqb v "" then Some next else Some v
  | None => Some next
  end.

(** [work.some(w => w.at == next)] *)
Definition work_has (work : list work_item) (next : string) : bool :=
  existsb (fun w => String.eqb (at_ w) next) work.

(** The inner [for (let next of ...)] loop of [findRoute] over the
    neighbours still to visit, with the work list it leaves: [Some r] when
    the function returns [r] from inside the loop, [None] when the loop
    ends. *)
Fixpoint scan (to : string) (via0 : option string) (nexts : list string)
    (work : list work_item) : option (option string) * list work_item :=
  match nexts with
  | [] => (None, work)
  | next :: rest =>
      if String.eqb next to then (Some via0, work)
      else if work_has work next then scan to via0 rest work
      else scan to via0 rest (work ++ [WorkItem next (via_or via0 next)])
  end.

(** The outer [for (let i = 0; i < work.length; i++)] loop, with the final
    work list beside the returned value.  [None] is only for a run that is
    cut short by [fuel]. *)
Fixpoint route_loop (fuel : nat) (connections0 : jsmap) (to : string)
    (i : nat) (work : list work_item) : option (option string * list work_item) :=
  match fuel with
  | O => None
  | S fuel' =>
      match nth_error work i with
      | None => Some (None, work)
      | Some (WorkItem at0 via0) =>
          match scan to via0 (neighbours_of connections0 at0) work with
          | (Some r, work') => Some (r, work')
          | (None, work') => route_loop fuel' connections0 to (S i) work'
          end
      end
  end.

(** Every name some entry of the table lists as a neighbour. *)
Definition listed_names (connections0 : jsmap) : list string :=
  concat (map snd connections0).

(** Enough iterations for any table: the work list never holds more than
    the start and the listed names. *)
Definition route_fuel (connections0 : jsmap) : nat :=
  2 + length (listed_names connections0).

Definition findRoute_run (from to : string) (connections0 : jsmap)
    : option (option string * list work_item) :=
  route_loop (route_fuel connections0) connections0 to 0 [WorkItem from None].

Definition findRoute (from to : string) (connections0 : jsmap) : option string :=
  match findRoute_run from to connections0 with
  | Some (r, _) => r
  | None => None
  end.

(** The work list [findRoute] ends with. *)
Definition findRoute_work (from to : string) (connections0 : jsmap)
    : list work_item :=
  match findRoute_run from to connections0 with
  | Some (_, w) => w
  | None => []
  end.

(** [new Error(`No route to ${target}`)] *)
Definition NoRoute (target : string) : value :=
  VErr (Error ("No route to " ++ target)).

Definition routeRequest (n : nest) (target type : string) (content : value)
    : result request_call :=
  if includes (neighbors n) target then
    Return (request n target type content)
  else
    match findRoute (name n) target (connections (state n)) with
    | Some via0 =>
        if String.eqb via0 "" then Throw (NoRoute target)
        else Return (request n via0 "route" (VRoute target type content))
    | None => Throw (NoRoute target)
    end.

(** ** The network as a nest's requests see it

    The state each call of [request] ends in (fulfilled with the answer,
    rejected with the handler's failure or a [Timeout], or pending). *)
Definition network_behaviour : Type := request_call -> promise value.

(** The error of the runtime (V8) when the parameter pattern
    [{target, type, content}] meets [undefined] or [null]: the message
    names the first property of the pattern. *)
Definition cannot_destructure (v : value) : value :=
  match v with
  | VNull =>
      VErr (TypeError "Cannot destructure property 'target' of 'object null' as it is null.")
  | _ =>
      VErr (TypeError "Cannot destructure property 'target' of 'undefined' as it is undefined.")
  end.

(** The handler of ["route"]: it destructures the content as
    [{target, type, content}].  [null] and [undefined] cannot be
    destructured; any other value without these fields gives [undefined]
    for each, and no nest is named [undefined]. *)
Definition route_handler (net : network_behaviour) : handler :=
  fun n content0 _ =>
    match content0 with
    | VRoute target type content =>
        match routeRequest n target type content with
        | Return rc => Return (Promised (net rc))
        | Throw exn => Throw exn
        end
    | VUndefined | VNull => Throw (cannot_destructure content0)
    | _ => Throw (NoRoute "undefined")
    end.

(** ** Distributed Lookup *)

(** [storage(nest, name)]: the promise resolves with what [readStorage]
    calls back with. *)
Definition storage (n : nest) (key : string) : promise value :=
  Fulfilled (readStorage n key).

(** [network(nest)]: the keys of the connections table. *)
Definition network (n : nest) : list string :=
  map_keys (connections (state n)).

(** [Math.floor(Math.random() * len)] for the [k]-th call of
    [Math.random]: the draws are a stream, and a draw picks any index below
    [len]. *)
Definition random_index (draw : nat -> nat) (k len : nat) : nat :=
  draw k mod len.

(** [array.filter(n => n != x)] *)
Definition without (x : string) (l : list string) : list string :=
  List.filter (fun y => negb (String.eqb y x)) l.

(** [new Error("Not found")] *)
Definition NotFound : value := VErr (Error "Not found").

Lemma without_shorter (x : string) (l : list string) :
  In x l -> length (without x l) < length l.
Proof.
  induction l as [|y l IH]; simpl; [tauto|].
  intros [->|Hin].
  - rewrite String.eqb_refl. simpl.
    pose proof (List.filter_length_le (fun y => negb (String.eqb y x)) l).
    unfold without in *. lia.
  - specialize (IH Hin). destruct (negb (String.eqb y x)); simpl; lia.
Qed.

Lemma pick_shortens (draw : nat -> nat) (k : nat) (s0 : string)
    (rest : list string) :
  length (without (nth (random_index draw k (length (s0 :: rest))) (s0 :: rest) s0)
            (s0 :: rest))
  < length (s0 :: rest).
Proof.
  apply without_shorter, nth_In. unfold random_index.
  apply Nat.mod_upper_bound. simpl. lia.
Qed.

Section Lookup.
Variable net : network_behaviour.
Variable draw : nat -> nat.
Variable n : nest.
Variable key : string.

(** The inner function [next] of [findInRemoteStorage], for the sources
    left and the number [k] of random draws made so far. *)
Equations? next (k : nat) (sources : list string) : result (promise value)
    by wf (length sources) lt :=
  next k [] := Return (Rejected NotFound);
  next k (s0 :: rest) :=
    let source := nth (random_index draw k (length (s0 :: rest))) (s0 :: rest) s0 in
    let sources' := without source (s0 :: rest) in
    match routeRequest n source "storage" (VStr key) with
    | Throw exn => Throw exn
    | Return rc =>
        Return (then_ (net rc)
                  (fun v => if not_nullish v then Return (Fulfilled v)
                            else next (S k) sources')
                  (Some (fun _ => next (S k) sources')))
    end.
Proof.
  all: exact (pick_shortens draw k s0 rest).
Qed.

Definition findInRemoteStorage : result (promise value) :=
  next 0 (without (name n) (network n)).

Definition findInStorage : promise value :=
  then_ (storage n key)
    (fun found => if not_nullish found then Return (Fulfilled found)
                  else findInRemoteStorage)
    None.
End Lookup.

(** A request that brings no value: it fails, or answers [null] or
    [undefined]. *)
Definition no_answer (p : promise value) : Prop :=
  match p with
  | Pending => False
  | Fulfilled v => not_nullish v = false
  | Rejected _ => True
  end.

(** ** The [Group] class *)

Record Group : Type := MkGroup { members : list value }.

(** [new Group()] *)
Definition Group_new : Group := MkGroup [].

(** The methods of [Array.prototype] that change or test membership, as
    functions of the array and the argument giving the new array and the
    returned value.  A name that is no property of an array ([add] belongs
    to [Set]) is looked up as [undefined]. *)
Definition array_method (method : string)
    : option (list value -> value -> list value * value) :=
  if String.eqb method "push" then
    Some (fun arr x => (arr ++ [x], VNum (length (arr ++ [x]))))
  else if String.eqb method "unshift" then
    Some (fun arr x => (x :: arr, VNum (length (x :: arr))))
  else if String.eqb method "pop" then
    Some (fun arr _ => (removelast arr, List.last arr VUndefined))
  else if String.eqb method "shift" then
    Some (fun arr _ => (tl arr, hd VUndefined arr))
  else None.

(** [arr.method(x)]: calling [undefined] raises a [TypeError]. *)
Definition array_call (arr : list value) (method : string) (x : value)
    : result (list value * value) :=
  match array_method method with
  | Some f => Return (f arr x)
  | None => Throw (VErr (TypeError ("this.members." ++ method ++ " is not a function")))
  end.

(** [add(m) { this.members.add(m) }]: the group after the call. *)
Definition Group_add (g : Group) (m : value) : result Group :=
  match array_call (members g) "add" m with
  | Return (arr, _) => Return (MkGroup arr)
  | Throw exn => Throw exn
  end.

(** ** [Promise_all] *)

(** [results[i] = v] on an array with holes: an index past the end extends
    the array. *)
Fixpoint array_set (l : list (option value)) (i : nat) (v : value)
    : list (option value) :=
  match i, l with
  | O, [] => [Some v]
  | O, _ :: t => Some v :: t
  | S i', [] => None :: array_set [] i' v
  | S i', h :: t => h :: array_set t i' v
  end.

(** How the promise [Promise_all] returns was settled: by [resolve(results)],
    which hands over the array [results] itself, or by [reject(error)]. *)
Inductive all_settled : Type :=
  | NotSettled
  | ResolvedWithResults
  | RejectedWith (reason : value).

Record all_state : Type := AllState {
  results : list (option value);
  remaining : Z;
  settled : all_settled
}.

Definition all_resolve (s : all_settled) : all_settled :=
  match s with
  | NotSettled => ResolvedWithResults
  | _ => s
  end.

Definition all_reject (s : all_settled) (reason : value) : all_settled :=
  match s with
  | NotSettled => RejectedWith reason
  | _ => s
  end.

(** The reaction to the settling of [promises[i]]: the [then] callback
    when it is fulfilled, the [catch] callback when it is rejected; no
    reaction for a pending promise or outside the array. *)
Definition all_react (promises : list (promise value)) (i : nat)
    (st : all_state) : all_state :=
  match nth_error promises i with
  | Some (Fulfilled v) =>
      let results' := array_set (results st) i v in
      let remaining' := (remaining st - 1)%Z in
      AllState results' remaining'
        (if Z.eqb remaining' 0 then all_resolve (settled st) else settled st)
  | Some (Rejected reason) =>
      AllState (results st) (remaining st) (all_reject (settled st) reason)
  | _ => st
  end.

(** The executor of [Promise_all], then the reactions in the order
    [order] in which the input promises' callbacks run. *)
Definition Promise_all_run (promises : list (promise value)) (order : list nat)
    : all_state :=
  let remaining0 := Z.of_nat (length promises) in
  if Z.eqb remaining0 0 then AllState [] remaining0 ResolvedWithResults
  else fold_left (fun st i => all_react promises i st) order
         (AllState [] remaining0 NotSettled).

(** The promise [Promise_all(promises)] as it stands after these reactions. *)
Definition Promise_all (promises : list (promise value)) (order : list nat)
    : promise (list (option value)) :=
  let st := Promise_all_run promises order in
  match settled st with
  | NotSettled => Pending
  | ResolvedWithResults => Fulfilled (results st)
  | RejectedWith reason => Rejected reason
  end.

(** The value at index [j] of an array with holes. *)
Definition array_get (l : list (option value)) (j : nat) : option value :=
  match nth_error l j with
  | Some (Some v) => Some v
  | _ => None
  end.

(** The value a promise is fulfilled with. *)
Definition fulfilled_value (p : option (promise value)) : option value :=
  match p with
  | Some (Fulfilled v) => Some v
  | _ => None
  end.

Definition is_rejected (p : option (promise value)) : bool :=
  match p with
  | Some (Rejected _) => true
  | _ => false
  end.

(** The indices of [l] whose promise is fulfilled. *)
Definition fulfilled_in (promises : list (promise value)) (l : list nat) : list nat :=
  List.filter (fun j => match fulfilled_value (nth_error promises j) with
                        | Some _ => true
                        | None => false
                        end) l.

(** * Specification vocabulary *)

(** A walk of [k] links from [a] to [b] in a connections table. *)
Fixpoint walk (connections0 : jsmap) (k : nat) (a b : string) : Prop :=
  match k with
  | O => a = b
  | S k' => exists c, In c (neighbours_of connections0 a) /\ walk connections0 k' c b
  end.

(** [b] can be reached from [a] over the table's links. *)
Definition reachable (connections0 : jsmap) (a b : string) : Prop :=
  exists k, walk connections0 k a b.

(** The names on an annotated work list. *)
Definition ats (aw : list (work_item * nat)) : list string :=
  map (fun x => at_ (fst x)) aw.

(** The invariant of the outer loop of [findRoute] at index [i], over the
    work list with each entry's number of links from the start beside
    it. *)
Record route_inv (tbl : jsmap) (from to : string) (i : nat)
    (aw : list (work_item * nat)) : Prop := RouteInv {
  inv_head : nth_error aw 0 = Some (WorkItem from None, 0);
  inv_nodup : List.NoDup (ats aw);
  inv_listed : forall x, In x (ats aw) -> x = from \/ In x (listed_names tbl);
  inv_sorted : forall j k x y,
    j <= k -> nth_error aw j = Some x -> nth_error aw k = Some y -> snd x <= snd y;
  inv_bound : forall xi y,
    nth_error aw i = Some xi -> In y aw -> snd y <= S (snd xi);
  inv_reach : forall a v l, In (WorkItem a v, l) aw -> walk tbl l from a;
  inv_via : forall j a v l,
    nth_error aw (S j) = Some (WorkItem a v, l) ->
    exists h l', v = Some h /\ l = S l' /\
      (~ In "" (neighbours_of tbl from) ->
       h <> "" /\ In h (neighbours_of tbl from) /\ walk tbl l' h a);
  inv_closed : forall k a v l x,
    k < i -> nth_error aw k = Some (WorkItem a v, l) ->
    In x (neighbours_of tbl a) ->
    x <> to /\ exists u lx, In (WorkItem x u, lx) aw /\ lx <= S l
}.

(** What [findRoute] promises about the value it returns. *)
Definition route_post (tbl : jsmap) (from to : string) (r : option string) : Prop :=
  match r with
  | None => In to (neighbours_of tbl from) \/ forall k, ~ walk tbl (S k) from to
  | Some h =>
      ~ In to (neighbours_of tbl from) /\
      (exists k, walk tbl (S k) from to) /\
      (~ In "" (neighbours_of tbl from) ->
       In h (neighbours_of tbl from) /\
       exists k, walk tbl k h to /\ forall m, walk tbl (S m) from to -> k <= m)
  end.

(** Entries pushed while visiting index [i] are one link further. *)
Definition annotate (l : nat) (added : list work_item) : list (work_item * nat) :=
  map (fun w => (w, S l)) added.

(** ** Example nests and tables *)

(** Four nests in a line. *)
Definition line4 : jsmap :=
  [("A", ["B"]); ("B", ["A"; "C"]); ("C", ["B"; "D"]); ("D", ["C"])].

Definition blank_table : jsmap :=
  [("A", [""]); ("", ["C"]); ("C", ["D"])].

Definition nest_a : nest :=
  Nest "A" ["B"]
    (NestState [] [("A", ["B"]); ("B", ["A"; "C"]); ("C", ["B"; "D"]); ("D", ["C"])])
    (fun _ => VUndefined).

Definition nest_b : nest :=
  Nest "B" ["A"; "C"] (NestState ["old"] [("B", ["A"; "C"])]) (fun _ => VUndefined).

Definition nest_blank : nest :=
  Nest "A" [""] (NestState [] [("A", [""]); ("", ["T"])]) (fun _ => VUndefined).

(** A nest that has learnt the entry of [D] but not yet the entry of the
    nest in between. *)
Definition nest_partial : nest :=
  Nest "A" ["B"] (NestState [] [("A", ["B"]); ("D", ["C"])]) (fun _ => VUndefined).

(** * The rest of the program *)

(** ** Bookkeeping for the event loop of [request] *)

(** How many further events an event can lead to, itself included: a
    callback none, the timer of attempt [n] those of the attempts left. *)
Definition event_weight (e : event) : nat :=
  match e with
  | CallbackArrives _ _ => 1
  | TimerFires n => 1 + 2 * (3 - n)
  end.

Definition queue_weight (q : list (nat * event)) : nat :=
  list_sum (map (fun x => event_weight (snd x)) q).

Definition is_timer (x : nat * event) : bool :=
  match snd x with
  | TimerFires _ => true
  | CallbackArrives _ _ => false
  end.

(** The times at which [request] can send. *)
Definition send_times (rc : request_call) : list (nat * request_call) :=
  [(0, rc); (retry_interval, rc); (2 * retry_interval, rc)].

(** The invariant of the event loop: a settled [done] flag means a settled
    promise; an unsettled promise has its timer pending; the one pending
    timer is that of the last attempt, one interval after it; the sends so
    far are the first of the three possible ones. *)
Record engine_inv (rc : request_call) (st : engine) : Prop := EngineInv {
  einv_done : done st = true -> outcome st <> Pending;
  einv_live : outcome st = Pending -> exists t n, In (t, TimerFires n) (queue st);
  einv_one : length (List.filter is_timer (queue st)) <= 1;
  einv_timer : forall t n, In (t, TimerFires n) (queue st) ->
    n = length (sent st) /\ t = n * retry_interval;
  einv_sent : 1 <= length (sent st) <= 3 /\
    sent st = firstn (length (sent st)) (send_times rc)
}.

(** A transport that answers only the third send, after the engine has
    given up. *)
Definition late_transport : transport :=
  fun _ k => if Nat.eqb k 3 then Some (300, VNull, VStr "pong") else None.

(** A transport that answers every send at once. *)
Definition prompt_transport : transport :=
  fun _ _ => Some (20, VNull, VStr "pong").

Definition ping_a_b : request_call := RequestCall "A" "B" "ping" VUndefined.

(** ** Setting up and maintaining the connections table *)

(** The body of [everywhere(nest => {...})] for the connections: a fresh
    [Map] with the nest's own entry, announced to every neighbour. *)
Definition init_connections (n : nest) : nest * list effect :=
  let n' := set_connections n (map_set [] (name n) (neighbors n)) in
  (n', broadcastConnections n' (name n) None).

(** A nest handling a sequence of ["connections"] requests
    [(name, neighbors, source)]. *)
Fixpoint connections_run (n : nest) (updates : list (string * list string * string))
    : nest * list effect :=
  match updates with
  | [] => (n, [])
  | (name0, neighbors0, source) :: rest =>
      let '(n1, e1) := connections_handler n name0 neighbors0 source in
      let '(n2, e2) := connections_run n1 rest in
      (n2, e1 ++ e2)
  end.

(** ** A routed request on its way

    [nest_named nests x] is the nest called [x].  [forward] follows a
    request for [target] from nest to nest, each request reaching the
    neighbour it is sent to: a ["route"] request makes that neighbour's
    handler call [routeRequest] in turn.  It gives the names the request
    is sent to, the last one being [target]; [None] when some nest raises
    no-route, a name has no nest, or [fuel] hops were not enough. *)
Definition nest_named (nests : list nest) (x : string) : option nest :=
  find (fun m => String.eqb (name m) x) nests.

Fixpoint forward (nests : list nest) (fuel : nat) (n : nest)
    (target type : string) (content : value) : option (list string) :=
  match fuel with
  | O => None
  | S fuel' =>
      match routeRequest n target type content with
      | Throw _ => None
      | Return rc =>
          if includes (neighbors n) target then Some [rc_target rc]
          else
            match nest_named nests (rc_target rc), rc_content rc with
            | Some relay, VRoute target' type' content' =>
                option_map (cons (rc_target rc))
                  (forward nests fuel' relay target' type' content')
            | _, _ => None
            end
      end
  end.

(** A network whose nests all hold the table [tbl], which lists for each
    nest its neighbours, none with the empty name, and has a nest for every
    name it lists. *)
Record settled_network (tbl : jsmap) (nests : list nest) : Prop := SettledNetwork {
  sn_table : forall m, In m nests -> connections (state m) = tbl;
  sn_neighbors : forall m, In m nests -> neighbors m = neighbours_of tbl (name m);
  sn_named : forall x, In x (listed_names tbl) -> exists m, nest_named nests x = Some m;
  sn_no_blank : ~ In "" (listed_names tbl)
}.

(** The four nests of [line4], each with the whole table. *)
Definition line4_nest (x : string) : nest :=
  Nest x (neighbours_of line4 x) (NestState [] line4) (fun _ => VUndefined).

Definition line4_nests : list nest :=
  [line4_nest "A"; line4_nest "B"; line4_nest "C"; line4_nest "D"].

(** [chain tbl a path]: each name of [path] is listed as a neighbour of the
    one before it, the first as a neighbour of [a]. *)
Fixpoint chain (tbl : jsmap) (a : string) (path : list string) : Prop :=
  match path with
  | [] => True
  | x :: rest => In x (neighbours_of tbl a) /\ chain tbl x rest
  end.

(** A network in which every request times out. *)
Definition silent_network : network_behaviour :=
  fun _ => Rejected (VErr (Timeout "Timed out")).

(** A network in which the nest [D] alone holds a value, ["42"], and the
    others answer [null]: what a request brings depends on the nest it is
    for, directly or through a ["route"] envelope. *)
Definition final_target (rc : request_call) : string :=
  match rc_content rc with
  | VRoute target _ _ => target
  | _ => rc_target rc
  end.

Definition d_holds_42 : network_behaviour :=
  fun rc => if String.eqb (final_target rc) "D" then Fulfilled (VStr "42")
            else Fulfilled VNull.

(** ** [availableNeighbors] *)

(** [request(...).then(() => true, () => false)]: the promise is fulfilled
    with whether the request was answered, and cannot reject; [None] while
    the request is pending. *)
Definition answered (p : promise value) : option bool :=
  match p with
  | Pending => None
  | Fulfilled _ => Some true
  | Rejected _ => Some false
  end.

(** [Promise.all] of promises that cannot reject: their values, once all
    are there. *)
Fixpoint all_values {A : Type} (l : list (option A)) : option (list A) :=
  match l with
  | [] => Some []
  | Some x :: rest => option_map (cons x) (all_values rest)
  | None :: _ => None
  end.

(** [array.filter((_, i) => result[i])] from index [i] on; an index past
    the end of [result] gives [undefined]. *)
Fixpoint filter_by_index (l : list string) (result : list bool) (i : nat)
    : list string :=
  match l with
  | [] => []
  | x :: rest =>
      if nth i result false then x :: filter_by_index rest result (S i)
      else filter_by_index rest result (S i)
  end.

Definition availableNeighbors (net : network_behaviour) (n : nest)
    : promise (list string) :=
  let requests :=
    map (fun neighbor => answered (net (request n neighbor "ping" VUndefined)))
        (neighbors n) in
  match all_values requests with
  | Some result => Fulfilled (filter_by_index (neighbors n) result 0)
  | None => Pending
  end.

(** Was the ["ping"] of nest [n] to [neighbor] answered? *)
Definition ping_answered (net : network_behaviour) (n : nest) (neighbor : string)
    : bool :=
  match net (request n neighbor "ping" VUndefined) with
  | Fulfilled _ => true
  | _ => false
  end.

(** A network in which the nest [C] alone does not answer. *)
Definition c_is_down : network_behaviour :=
  fun rc => if String.eqb (rc_target rc) "C" then Rejected (VErr (Timeout "Timed out"))
            else Fulfilled (VStr "pong").

(** ** [anyStorage] and [chicks] *)

Definition anyStorage (net : network_behaviour) (n : nest) (source key : string)
    : result (promise value) :=
  if String.eqb source (name n) then Return (storage n key)
  else
    match routeRequest n source "storage" (VStr key) with
    | Return rc => Return (net rc)
    | Throw exn => Throw exn
    end.

(** A natural number in a template literal: its decimal digits (as numbers
    below 10^21 print). *)
Definition decimal (k : nat) : string :=
  NilEmpty.string_of_uint (Nat.to_uint k).

(** [Error.prototype.toString]; [Timeout] sets no name of its own. *)
Definition error_to_string (e : error) : string :=
  let '(class, msg) :=
    match e with
    | Timeout msg => ("Error", msg)
    | Error msg => ("Error", msg)
    | TypeError msg => ("TypeError", msg)
    end in
  if String.eqb msg "" then class else class ++ ": " ++ msg.

(** A value in a template literal. *)
Definition value_to_string (v : value) : string :=
  match v with
  | VUndefined => "undefined"
  | VNull => "null"
  | VBool true => "true"
  | VBool false => "false"
  | VNum k => decimal k
  | VStr s => s
  | VErr e => error_to_string e
  | VRoute _ _ _ | VConn _ _ => "[object Object]"
  end.

Definition newline : string := String (ascii_of_nat 10) EmptyString.

(** [`chicks in ${year}`] *)
Definition chicks_key (year : nat) : string := "chicks in " ++ decimal year.

(** [`${name}: ${value}\n`] *)
Definition chick_line (name0 : string) (v : value) : string :=
  name0 ++ ": " ++ value_to_string v ++ newline.

(** The binding [list], the number of callbacks that have run to their
    end, and the first rejection among them. *)
Record chicks_state : Type := ChicksState {
  list_binding : string;
  finished : nat;
  failed : option value
}.

(** What [list] holds when [map] calls the callbacks, all of them before
    any [await] is over: [list += ...] reads it then. *)
Definition list_at_map : string := "".

(** The callback for the name at index [i] going on after its [await]:
    with a value, [list] becomes what the callback read at its start
    followed by the line; a rejection rejects the callback's promise. *)
Definition chicks_resume (net : network_behaviour) (n : nest) (year : nat)
    (i : nat) (st : chicks_state) : chicks_state :=
  match nth_error (network n) i with
  | None => st
  | Some name0 =>
      match anyStorage net n name0 (chicks_key year) with
      | Return (Fulfilled v) =>
          ChicksState (list_at_map ++ chick_line name0 v) (S (finished st))
            (failed st)
      | Return (Rejected reason) =>
          ChicksState (list_binding st) (finished st)
            (match failed st with
             | None => Some reason
             | Some r => Some r
             end)
      | _ => st
      end
  end.

(** The exception of the first callback in which [anyStorage] raises:
    its promise is rejected before any other settles. *)
Fixpoint first_throw (reads : list (result (promise value))) : option value :=
  match reads with
  | [] => None
  | Throw exn :: _ => Some exn
  | Return _ :: rest => first_throw rest
  end.

(** [chicks(nest, year)], the callbacks going on after their [await] in
    the order [order]. *)
Definition chicks (net : network_behaviour) (n : nest) (year : nat)
    (order : list nat) : promise string :=
  let reads :=
    map (fun name0 => anyStorage net n name0 (chicks_key year)) (network n) in
  match first_throw reads with
  | Some exn => Rejected exn
  | None =>
      let st := fold_left (fun st i => chicks_resume net n year i st) order
                  (ChicksState list_at_map 0 None) in
      match failed st with
      | Some reason => Rejected reason
      | None =>
          if Nat.eqb (finished st) (length (network n))
          then Fulfilled (list_binding st)
          else Pending
      end
  end.

(** * Properties *)

(** ** Request/Retry Engine *)

Lemma run_idle (fuel : nat) (tr : transport) (rc : request_call) (st : engine) :
  queue st = [] -> run fuel tr rc st = st.
Proof. intros Hq. destruct fuel; simpl; [reflexivity|]. now rewrite Hq. Qed.

Lemma run_next (fuel : nat) (tr : transport) (rc : request_call) (st : engine)
    t e q :
  queue st = (t, e) :: q ->
  run (S fuel) tr rc st =
  run fuel tr rc (run_event tr rc e (Engine t (done st) (outcome st) (sent st) q)).
Proof. intros Hq. simpl. now rewrite Hq. Qed.

(** C1: when the transport never invokes the completion callback, a call of
    [request] sends exactly three times, at times 0, 250 and 500 (one retry
    interval apart), and at time 750 rejects with [Timeout]; no event is
    left pending, so no further attempt follows. *)
Theorem request_times_out_after_three_attempts (tr : transport)
    (rc : request_call) (fuel : nat) :
  (forall k, tr rc k = None) ->
  3 <= fuel ->
  request_run fuel tr rc =
    Engine (3 * retry_interval) false (Rejected (VErr (Timeout "Timed out")))
      [(0, rc); (retry_interval, rc); (2 * retry_interval, rc)] [].
Proof.
  intros Hnever Hfuel.
  destruct fuel as [|[|[|fuel]]]; try lia.
  unfold request_run.
  assert (Hattempt : forall k st,
            attempt tr rc k st =
            Engine (now st) (done st) (outcome st) (sent st ++ [(now st, rc)])
              (schedule (now st + retry_interval) (TimerFires k) (queue st))).
  { intros k st. unfold attempt. now rewrite Hnever. }
  rewrite Hattempt. cbn -[run].
  do 2 (erewrite run_next by reflexivity; cbn -[run]; rewrite Hattempt; cbn -[run]).
  erewrite run_next by reflexivity. cbn -[run].
  now rewrite run_idle.
Qed.

Lemma request_times_out_witness :
  request_run 3 (fun _ _ => None) (RequestCall "A" "B" "ping" VUndefined) =
    Engine 750 false (Rejected (VErr (Timeout "Timed out")))
      [(0, RequestCall "A" "B" "ping" VUndefined);
       (250, RequestCall "A" "B" "ping" VUndefined);
       (500, RequestCall "A" "B" "ping" VUndefined)] [].
Proof.
  apply (request_times_out_after_three_attempts (fun _ _ => None)
           (RequestCall "A" "B" "ping" VUndefined) 3).
  - reflexivity.
  - lia.
Defined.

(** ** Dispatcher *)

(** C7 (the claim fails): a handler that rejects with [null], or raises
    the empty string, makes [requestType] call back as a handler that
    returns [undefined] does, up to the unused second argument, and the
    promise of the requester is fulfilled with [undefined]. *)
Lemma requestType_falsy_reason :
  requestType (fun _ _ _ => Return (Promised (Rejected VNull))) nest_b VUndefined "A"
    = Some (Callback VNull VUndefined) /\
  requestType (fun _ _ _ => Return (Plain VUndefined)) nest_b VUndefined "A"
    = Some (Callback VNull VUndefined) /\
  requestType (fun _ _ _ => Throw (VStr "")) nest_b VUndefined "A"
    = Some (Callback (VStr "") VUndefined) /\
  outcome (run_event prompt_transport ping_a_b (CallbackArrives VNull VUndefined)
             (Engine 20 false Pending [(0, ping_a_b)] []))
    = Fulfilled VUndefined /\
  outcome (run_event prompt_transport ping_a_b
             (CallbackArrives (VStr "") VUndefined)
             (Engine 20 false Pending [(0, ping_a_b)] []))
    = Fulfilled VUndefined.
Proof. repeat split. Qed.

(** C7 (amended): the function installed by [requestType] turns a
    handler's plain value or fulfilled promise into the call
    [callback(null, value)], which fulfils the pending promise of the
    requester with the value; and, when the reason or the exception is
    truthy, a rejected promise or a raised exception into the call
    [callback(reason)], which rejects the pending promise of the requester
    with that reason. *)
Theorem requestType_normalizes (h : handler) (n : nest) (content : value)
    (source : string) :
  (forall v,
     h n content source = Return (Plain v) \/
     h n content source = Return (Promised (Fulfilled v)) ->
     requestType h n content source = Some (Callback VNull v) /\
     forall tr rc st, outcome st = Pending ->
       outcome (run_event tr rc (CallbackArrives VNull v) st) = Fulfilled v) /\
  (forall reason, truthy reason = true ->
     h n content source = Return (Promised (Rejected reason)) \/
     h n content source = Throw reason ->
     requestType h n content source = Some (Callback reason VUndefined) /\
     forall tr rc st, outcome st = Pending ->
       outcome (run_event tr rc (CallbackArrives reason VUndefined) st)
       = Rejected reason).
Proof.
  unfold requestType. split.
  - intros v Hv. split.
    + destruct Hv as [Hv|Hv]; rewrite Hv; reflexivity.
    + intros tr rc st Hpending. cbn. now rewrite Hpending.
  - intros reason Htruthy Hr. split.
    + destruct Hr as [Hr|Hr]; rewrite Hr; reflexivity.
    + intros tr rc st Hpending. cbn. now rewrite Htruthy, Hpending.
Qed.

Lemma requestType_normalizes_witness :
  requestType ping_handler nest_b VUndefined "A" = Some (Callback VNull (VStr "pong")) /\
  requestType (route_handler silent_network) nest_a (VRoute "Z" "ping" VNull) "B"
    = Some (Callback (NoRoute "Z") VUndefined) /\
  requestType (route_handler silent_network) nest_a (VRoute "D" "ping" VNull) "B"
    = Some (Callback (VErr (Timeout "Timed out")) VUndefined) /\
  outcome (run_event prompt_transport ping_a_b
             (CallbackArrives (NoRoute "Z") VUndefined)
             (Engine 20 false Pending [(0, ping_a_b)] []))
    = Rejected (NoRoute "Z").
Proof.
  split; [|split; [|split]].
  - apply (proj1 (requestType_normalizes ping_handler nest_b VUndefined "A")
             (VStr "pong")).
    left. reflexivity.
  - apply (proj2 (requestType_normalizes (route_handler silent_network) nest_a
                    (VRoute "Z" "ping" VNull) "B") (NoRoute "Z")).
    + reflexivity.
    + right. reflexivity.
  - apply (proj2 (requestType_normalizes (route_handler silent_network) nest_a
                    (VRoute "D" "ping" VNull) "B") (VErr (Timeout "Timed out"))).
    + reflexivity.
    + left. reflexivity.
  - apply (proj2 (requestType_normalizes (route_handler silent_network) nest_a
                    (VRoute "Z" "ping" VNull) "B") (NoRoute "Z")).
    + reflexivity.
    + right. reflexivity.
    + reflexivity.
Defined.

(** ** The [Group] class *)

(** C10: [add] raises a [TypeError] on every group and member, so no call
    returns a group with the member added. *)
Theorem Group_add_raises (g : Group) (m : value) :
  Group_add g m = Throw (VErr (TypeError "this.members.add is not a function")) /\
  (forall g', Group_add g m <> Return g').
Proof.
  split; [reflexivity|]. intros g'. discriminate.
Qed.

(** ** Gossip Service *)

Lemma includes_In (l : list string) (x : string) :
  includes l x = true <-> In x l.
Proof.
  unfold includes. rewrite existsb_exists. split.
  - intros (y & Hy & Heq). apply String.eqb_eq in Heq. now subst.
  - intros Hin. exists x. split; [assumption|apply String.eqb_refl].
Qed.

Lemma includes_not_In (l : list string) (x : string) :
  includes l x = false <-> ~ In x l.
Proof.
  rewrite <- includes_In. destruct (includes l x); split; congruence.
Qed.

Lemma to_neighbors_spec (n : nest) (source type : string) (content : value) :
  to_neighbors n (Some source) type content =
  map (fun neighbor => Requested (RequestCall (name n) neighbor type content))
      (without source (neighbors n)).
Proof.
  unfold to_neighbors, without, request.
  induction (neighbors n) as [|x l IH]; [reflexivity|].
  cbn [flat_map List.filter loose_eq]. cbn [loose_eq] in IH. rewrite IH.
  now destruct (String.eqb x source).
Qed.

Lemma to_neighbors_all (n : nest) (type : string) (content : value) :
  to_neighbors n None type content =
  map (fun neighbor => Requested (RequestCall (name n) neighbor type content))
      (neighbors n).
Proof.
  unfold to_neighbors, request.
  induction (neighbors n) as [|x l IH]; [reflexivity|].
  cbn [flat_map loose_eq map]. cbn [loose_eq] in IH. now rewrite IH.
Qed.

Lemma gossip_count_app neighbor message e1 e2 :
  gossip_count neighbor message (e1 ++ e2) =
  gossip_count neighbor message e1 + gossip_count neighbor message e2.
Proof. unfold gossip_count. now rewrite List.filter_app, length_app. Qed.

Lemma gossip_count_to_neighbors (n : nest) exceptFor neighbor message m :
  gossip_count neighbor message (to_neighbors n exceptFor "gossip" (VStr m))
  <= if String.eqb m message then count_occ string_dec (neighbors n) neighbor else 0.
Proof.
  unfold gossip_count, to_neighbors, request.
  induction (neighbors n) as [|x l IH]; simpl.
  - destruct (String.eqb m message); lia.
  - rewrite List.filter_app, length_app.
    destruct (loose_eq x exceptFor); simpl.
    + destruct (String.eqb m message); [|lia].
      destruct (string_dec x neighbor); lia.
    + destruct (String.eqb_spec m message) as [->|Hne].
      * destruct (String.eqb_spec x neighbor) as [->|Hx]; simpl.
        -- destruct (string_dec neighbor neighbor); [lia|congruence].
        -- destruct (string_dec x neighbor); [congruence|lia].
      * rewrite andb_false_r. simpl. lia.
Qed.

Lemma gossip_count_log neighbor message line effects :
  gossip_count neighbor message (Logged line :: effects)
  = gossip_count neighbor message effects.
Proof. reflexivity. Qed.

Lemma gossip_handler_seen (n : nest) (message source : string) :
  includes (gossip (state n)) message = true ->
  gossip_handler n message source = (n, []).
Proof. intros Hseen. unfold gossip_handler. now rewrite Hseen. Qed.

Lemma gossip_handler_new (n : nest) (message source : string) :
  includes (gossip (state n)) message = false ->
  gossip_handler n message source =
    (set_gossip n (gossip (state n) ++ [message]),
     Logged (name n ++ " received gossip '" ++ message ++ "' from " ++ source)
     :: to_neighbors n (Some source) "gossip" (VStr message)).
Proof. intros Hnew. unfold gossip_handler. now rewrite Hnew. Qed.

Lemma includes_snoc (l : list string) (m x : string) :
  includes (l ++ [m]) x = includes l x || String.eqb m x.
Proof. unfold includes. rewrite existsb_app. simpl. now rewrite orb_false_r. Qed.

Lemma gossip_run_bound (n : nest) (deliveries : list (string * string))
    (neighbor message : string) :
  gossip_count neighbor message (snd (gossip_run n deliveries))
  <= if includes (gossip (state n)) message then 0
     else count_occ string_dec (neighbors n) neighbor.
Proof.
  revert n. induction deliveries as [|[m s] rest IH]; intros n; cbn [gossip_run].
  - unfold gossip_count. simpl. lia.
  - destruct (includes (gossip (state n)) m) eqn:Hm.
    + rewrite (gossip_handler_seen n m s Hm).
      specialize (IH n). destruct (gossip_run n rest) as [n2 e2]. exact IH.
    + rewrite (gossip_handler_new n m s Hm).
      specialize (IH (set_gossip n (gossip (state n) ++ [m]))).
      destruct (gossip_run _ rest) as [n2 e2].
      cbn [snd set_gossip state gossip neighbors] in *.
      rewrite <- app_comm_cons, gossip_count_log, gossip_count_app.
      rewrite includes_snoc in IH.
      pose proof (gossip_count_to_neighbors n (Some s) neighbor message m) as Hsend.
      destruct (String.eqb_spec m message) as [->|Hne].
      * rewrite Hm. rewrite orb_true_r in IH. lia.
      * rewrite orb_false_r in IH. lia.
Qed.

(** C4: the ["gossip"] handler does nothing for a message the nest has
    seen; for a new one it records it and requests ["gossip"] with it from
    every neighbour other than the source; over any sequence of deliveries
    a neighbour is sent a given message no more often than it is listed
    among the neighbours. *)
Theorem gossip_handler_forwards_once (n : nest) (message source : string) :
  (In message (gossip (state n)) -> gossip_handler n message source = (n, [])) /\
  (~ In message (gossip (state n)) ->
     gossip_handler n message source =
       (set_gossip n (gossip (state n) ++ [message]),
        Logged (name n ++ " received gossip '" ++ message ++ "' from " ++ source)
        :: map (fun neighbor =>
                  Requested (RequestCall (name n) neighbor "gossip" (VStr message)))
               (without source (neighbors n)))) /\
  (forall deliveries neighbor,
     gossip_count neighbor message (snd (gossip_run n deliveries))
     <= count_occ string_dec (neighbors n) neighbor).
Proof.
  split; [|split].
  - intros Hin. unfold gossip_handler.
    now rewrite (proj2 (includes_In _ _) Hin).
  - intros Hnot. unfold gossip_handler.
    rewrite (proj2 (includes_not_In _ _) Hnot). simpl.
    now rewrite to_neighbors_spec.
  - intros deliveries neighbor.
    pose proof (gossip_run_bound n deliveries neighbor message) as H.
    destruct (includes (gossip (state n)) message); lia.
Qed.

Lemma gossip_handler_witness :
  gossip_handler nest_b "old" "A" = (nest_b, []) /\
  gossip_handler nest_b "news" "A" =
    (set_gossip nest_b ["old"; "news"],
     [Logged "B received gossip 'news' from A";
      Requested (RequestCall "B" "C" "gossip" (VStr "news"))]).
Proof.
  split.
  - apply (proj1 (gossip_handler_forwards_once nest_b "old" "A")).
    simpl. tauto.
  - apply (proj1 (proj2 (gossip_handler_forwards_once nest_b "news" "A"))).
    simpl. intros [H|H]; [discriminate H|exact H].
Defined.

(** C8 (as stated, refuted): [sendGossip] for a message already in the
    list leaves two copies of it. *)
Lemma sendGossip_duplicates :
  In "old" (gossip (state nest_b)) /\
  gossip (state (fst (sendGossip nest_b "old" None))) = ["old"; "old"] /\
  count_occ string_dec (gossip (state (fst (sendGossip nest_b "old" None)))) "old" = 2.
Proof. repeat split. simpl. tauto. Qed.

(** C8 (amended): [sendGossip] always appends the message; for a message
    already recorded the nest has seen the same messages as before, and
    the list holds one more copy of it. *)
Theorem sendGossip_seen_again (n : nest) (message : string)
    (exceptFor : option string) :
  In message (gossip (state n)) ->
  gossip (state (fst (sendGossip n message exceptFor)))
    = gossip (state n) ++ [message] /\
  (forall x, In x (gossip (state (fst (sendGossip n message exceptFor))))
             <-> In x (gossip (state n))) /\
  count_occ string_dec (gossip (state (fst (sendGossip n message exceptFor)))) message
    = S (count_occ string_dec (gossip (state n)) message).
Proof.
  intros Hin. simpl. split; [reflexivity|split].
  - intros x. rewrite in_app_iff. simpl. split.
    + intros [H|[<-|[]]]; assumption.
    + tauto.
  - rewrite count_occ_app. simpl.
    destruct (string_dec message message); [lia|congruence].
Qed.

Lemma sendGossip_seen_again_witness :
  gossip (state (fst (sendGossip nest_b "old" None))) = ["old"] ++ ["old"] /\
  (forall x, In x (gossip (state (fst (sendGossip nest_b "old" None))))
             <-> In x ["old"]) /\
  count_occ string_dec (gossip (state (fst (sendGossip nest_b "old" None)))) "old"
    = 2.
Proof.
  apply (sendGossip_seen_again nest_b "old" None). simpl. tauto.
Defined.

(** ** Topology Service *)

Lemma unescape_escape_char (c : ascii) (rest : string) :
  unescape_char (escape_char c rest) = Some (c, rest).
Proof. destruct c as [[] [] [] [] [] [] [] []]; reflexivity. Qed.

Lemma unescape_closing_quote (rest : string) :
  unescape_char (String dquote rest) = None.
Proof. reflexivity. Qed.

Lemma escape_inj (s1 s2 r1 r2 : string) :
  escape s1 (String dquote r1) = escape s2 (String dquote r2) ->
  s1 = s2 /\ r1 = r2.
Proof.
  revert s2. induction s1 as [|c1 s1 IH]; intros [|c2 s2] Heq; simpl in Heq.
  - injection Heq as ->. now split.
  - apply (f_equal unescape_char) in Heq.
    rewrite unescape_closing_quote, unescape_escape_char in Heq. discriminate.
  - apply (f_equal unescape_char) in Heq.
    rewrite unescape_closing_quote, unescape_escape_char in Heq. discriminate.
  - apply (f_equal unescape_char) in Heq.
    rewrite !unescape_escape_char in Heq.
    injection Heq as -> Hrest.
    destruct (IH _ Hrest) as [-> ->]. now split.
Qed.

Lemma quote_inj (s1 s2 r1 r2 : string) :
  quote s1 r1 = quote s2 r2 -> s1 = s2 /\ r1 = r2.
Proof. unfold quote. intros Heq. injection Heq as Heq. now apply escape_inj. Qed.

Lemma stringify_items_inj (l1 l2 : list string) :
  stringify_items l1 "]" = stringify_items l2 "]" -> l1 = l2.
Proof.
  revert l2. induction l1 as [|x [|a l1] IH]; intros [|y [|b l2]] Heq;
    try reflexivity; try discriminate Heq.
  - apply quote_inj in Heq. now destruct Heq as [-> _].
  - apply quote_inj in Heq. destruct Heq as [_ Heq]. discriminate Heq.
  - apply quote_inj in Heq. destruct Heq as [_ Heq]. discriminate Heq.
  - change (quote x (String "," (stringify_items (a :: l1) "]"))
            = quote y (String "," (stringify_items (b :: l2) "]"))) in Heq.
    apply quote_inj in Heq. destruct Heq as [-> Heq].
    injection Heq as Heq. now rewrite (IH (b :: l2) Heq).
Qed.

(** Two arrays of names, or [undefined], have equal [JSON.stringify] texts
    exactly when they are the same array. *)
Lemma stringified_eq_iff (a b : option (list string)) :
  stringified_eq (JSON_stringify a) (JSON_stringify b) = true <-> a = b.
Proof.
  destruct a as [l1|], b as [l2|]; cbn [JSON_stringify stringified_eq String.eqb Ascii.eqb Bool.eqb];
    split; try congruence; try reflexivity.
  - intros Heq. apply String.eqb_eq in Heq.
    now rewrite (stringify_items_inj _ _ Heq).
  - intros [= ->]. apply String.eqb_refl.
Qed.

Lemma map_get_set_same (m : jsmap) (k : string) (v : list string) :
  map_get (map_set m k v) k = Some v.
Proof.
  induction m as [|[k' v'] m IH]; simpl.
  - now rewrite String.eqb_refl.
  - destruct (String.eqb k' k) eqn:Hk; simpl.
    + now rewrite String.eqb_refl.
    + now rewrite Hk.
Qed.

(** C5: the ["connections"] handler does nothing when the nest's entry for
    the name is the same list of names in the same order; otherwise it
    replaces the entry and requests ["connections"] with the name and the
    new list from every neighbour other than the source; delivering the
    same update again, from any source, then changes nothing and sends
    nothing. *)
Theorem connections_handler_idempotent (n : nest) (name0 : string)
    (neighbors0 : list string) (source : string) :
  (map_get (connections (state n)) name0 = Some neighbors0 ->
     connections_handler n name0 neighbors0 source = (n, [])) /\
  (map_get (connections (state n)) name0 <> Some neighbors0 ->
     connections_handler n name0 neighbors0 source =
       (set_connections n (map_set (connections (state n)) name0 neighbors0),
        map (fun neighbor =>
               Requested (RequestCall (name n) neighbor "connections"
                            (VConn name0 (Some neighbors0))))
            (without source (neighbors n)))) /\
  (forall source',
     connections_handler (fst (connections_handler n name0 neighbors0 source))
       name0 neighbors0 source'
     = (fst (connections_handler n name0 neighbors0 source), [])).
Proof.
  assert (Hsame : forall n1 s, map_get (connections (state n1)) name0 = Some neighbors0 ->
                    connections_handler n1 name0 neighbors0 s = (n1, [])).
  { intros n1 s Heq. unfold connections_handler.
    now rewrite (proj2 (stringified_eq_iff _ _) Heq). }
  assert (Hdiff : map_get (connections (state n)) name0 <> Some neighbors0 ->
     connections_handler n name0 neighbors0 source =
       (set_connections n (map_set (connections (state n)) name0 neighbors0),
        map (fun neighbor =>
               Requested (RequestCall (name n) neighbor "connections"
                            (VConn name0 (Some neighbors0))))
            (without source (neighbors n)))).
  { intros Hne. unfold connections_handler.
    destruct (stringified_eq _ _) eqn:Heq.
    - apply stringified_eq_iff in Heq. contradiction.
    - unfold broadcastConnections. rewrite to_neighbors_spec. simpl.
      now rewrite map_get_set_same. }
  split; [apply Hsame|split; [exact Hdiff|]].
  intros source'.
  destruct (stringified_eq (JSON_stringify (map_get (connections (state n)) name0))
              (JSON_stringify (Some neighbors0))) eqn:Heq.
  - apply stringified_eq_iff in Heq.
    rewrite (Hsame n source Heq). simpl. now apply Hsame.
  - assert (Hne : map_get (connections (state n)) name0 <> Some neighbors0).
    { intros Hsome. apply stringified_eq_iff in Hsome. congruence. }
    rewrite (Hdiff Hne). simpl. apply Hsame. simpl. apply map_get_set_same.
Qed.

Lemma connections_handler_witness :
  connections_handler nest_b "B" ["A"; "C"] "A" = (nest_b, []) /\
  connections_handler nest_b "B" ["C"; "A"] "A" =
    (set_connections nest_b [("B", ["C"; "A"])],
     [Requested (RequestCall "B" "C" "connections" (VConn "B" (Some ["C"; "A"])))]).
Proof.
  split.
  - apply (proj1 (connections_handler_idempotent nest_b "B" ["A"; "C"] "A")).
    reflexivity.
  - apply (proj1 (proj2 (connections_handler_idempotent nest_b "B" ["C"; "A"] "A"))).
    discriminate.
Defined.

(** ** Router: [findRoute] *)

Lemma work_has_In (work : list work_item) (x : string) :
  work_has work x = true <-> In x (map at_ work).
Proof.
  unfold work_has. rewrite existsb_exists, in_map_iff. split.
  - intros (w & Hw & Heq). apply String.eqb_eq in Heq. now exists w.
  - intros (w & Heq & Hw). exists w. split; [exact Hw|]. now apply String.eqb_eq.
Qed.

(** What one pass of the inner loop does to the work list. *)
Lemma scan_spec (to : string) (v : option string) (nexts : list string) :
  forall work res work',
    scan to v nexts work = (res, work') ->
    exists added,
      work' = work ++ added /\
      List.NoDup (map at_ added) /\
      (forall w, In w added ->
         In (at_ w) nexts /\ via w = via_or v (at_ w) /\
         ~ In (at_ w) (map at_ work) /\ at_ w <> to) /\
      match res with
      | Some r => r = v /\ In to nexts
      | None => ~ In to nexts /\ forall x, In x nexts -> In x (map at_ work')
      end.
Proof.
  induction nexts as [|next rest IH]; intros work res work' Hscan; simpl in Hscan.
  - injection Hscan as <- <-. exists []. rewrite app_nil_r.
    split; [reflexivity|]. split; [constructor|]. split; [intros w []|].
    split; [intros []|intros x []].
  - destruct (String.eqb_spec next to) as [Heq|Hne].
    { injection Hscan as <- <-. exists []. rewrite app_nil_r.
      split; [reflexivity|]. split; [constructor|]. split; [intros w []|].
      split; [reflexivity|now left]. }
    destruct (work_has work next) eqn:Hhas.
    + apply IH in Hscan. destruct Hscan as (added & -> & Hnd & Hitems & Hres).
      exists added. split; [reflexivity|]. split; [exact Hnd|]. split.
      * intros w Hw. destruct (Hitems w Hw) as (H1 & H2 & H3 & H4).
        repeat split; try assumption. now right.
      * destruct res as [r|].
        -- destruct Hres as [-> Hin]. split; [reflexivity|now right].
        -- destruct Hres as [Hnot Hall]. split.
           ++ intros [H|H]; [congruence|tauto].
           ++ intros x [<-|Hx]; [|now apply Hall].
              rewrite map_app. apply in_or_app. left. now apply work_has_In.
    + apply IH in Hscan. destruct Hscan as (added & -> & Hnd & Hitems & Hres).
      assert (Hfresh : ~ In next (map at_ work)).
      { rewrite <- work_has_In. congruence. }
      exists (WorkItem next (via_or v next) :: added).
      rewrite <- app_assoc. simpl.
      split; [reflexivity|]. split; [|split].
      * constructor; [|exact Hnd].
        intros Hin. apply in_map_iff in Hin. destruct Hin as (w & Hat & Hw).
        apply Hitems in Hw. destruct Hw as (_ & _ & Hw & _). apply Hw.
        rewrite map_app. apply in_or_app. right. simpl. left. now symmetry.
      * intros w [<-|Hw]; simpl.
        { repeat split; try assumption. now left. }
        destruct (Hitems w Hw) as (H1 & H2 & H3 & H4).
        repeat split; try assumption; [now right|].
        intros Hin. apply H3. rewrite map_app. apply in_or_app. now left.
      * destruct res as [r|].
        -- destruct Hres as [-> Hin]. split; [reflexivity|now right].
        -- destruct Hres as [Hnot Hall]. split.
           ++ intros [H|H]; [congruence|tauto].
           ++ rewrite <- app_assoc in Hall. simpl in Hall.
              intros x [<-|Hx]; [|now apply Hall].
              rewrite map_app. apply in_or_app. right. simpl. now left.
Qed.

Lemma neighbours_listed (tbl : jsmap) (a x : string) :
  In x (neighbours_of tbl a) -> In x (listed_names tbl).
Proof.
  unfold neighbours_of, listed_names.
  induction tbl as [|[k l] tbl IH]; simpl; [tauto|].
  destruct (String.eqb k a).
  - intros Hin. apply in_or_app. now left.
  - intros Hin. apply in_or_app. right. now apply IH.
Qed.

Lemma walk_snoc (tbl : jsmap) (k : nat) (a p b : string) :
  walk tbl k a p -> In b (neighbours_of tbl p) -> walk tbl (S k) a b.
Proof.
  revert a. induction k as [|k IH]; intros a Hwalk Hb.
  - simpl in Hwalk. subst p. exists b. split; [exact Hb|reflexivity].
  - destruct Hwalk as (c & Hc & Hwalk). exists c. split; [exact Hc|].
    now apply IH.
Qed.

Lemma walk_last (tbl : jsmap) (k : nat) (a b : string) :
  walk tbl (S k) a b -> exists p, walk tbl k a p /\ In b (neighbours_of tbl p).
Proof.
  revert a. induction k as [|k IH]; intros a (c & Hc & Hwalk).
  - simpl in Hwalk. subst c. exists a. split; [reflexivity|exact Hc].
  - apply IH in Hwalk. destruct Hwalk as (p & Hwalk & Hb).
    exists p. split; [|exact Hb]. exists c. now split.
Qed.

Section FindRoute.
Variable tbl : jsmap.
Variables from to : string.

Lemma route_inv_init : route_inv tbl from to 0 [(WorkItem from None, 0)].
Proof.
  constructor.
  - reflexivity.
  - repeat constructor. simpl. tauto.
  - intros x [<-|[]]. now left.
  - intros [|j] [|k] x y Hjk Hx Hy; simpl in *; try lia.
    + injection Hx as <-. injection Hy as <-. lia.
    + now destruct k.
    + now destruct j.
  - intros xi y Hxi [<-|[]]. simpl. lia.
  - intros a v l [[= <- <- <-]|[]]. reflexivity.
  - intros j a v l H. simpl in H. now destruct j.
  - intros k a v l x Hk. lia.
Qed.

Lemma route_inv_length (i : nat) (aw : list (work_item * nat)) :
  route_inv tbl from to i aw -> length aw <= S (length (listed_names tbl)).
Proof.
  intros Hinv.
  change (S (length (listed_names tbl))) with (length (from :: listed_names tbl)).
  replace (length aw) with (length (ats aw)) by apply length_map.
  apply List.NoDup_incl_length; [apply (inv_nodup _ _ _ _ _ Hinv)|].
  intros x Hx. destruct (inv_listed _ _ _ _ _ Hinv x Hx) as [->|H];
    [now left|now right].
Qed.

(** Every name a walk of [m] links reaches is on the work list with at
    most that many links, unless an entry still to be visited has
    fewer. *)
Lemma route_inv_reaches (i : nat) (aw : list (work_item * nat)) :
  route_inv tbl from to i aw ->
  forall m p, walk tbl m from p ->
    (exists j u lp, nth_error aw j = Some (WorkItem p u, lp) /\ lp <= m) \/
    (exists j y, i <= j /\ nth_error aw j = Some y /\ snd y < m).
Proof.
  intros Hinv. induction m as [|m IH]; intros p Hwalk.
  - simpl in Hwalk. subst p. left. exists 0, None, 0.
    split; [apply (inv_head _ _ _ _ _ Hinv)|lia].
  - apply walk_last in Hwalk. destruct Hwalk as (q & Hq & Hp).
    destruct (IH q Hq) as [(j & u & lq & Hj & Hle)|(j & y & Hij & Hj & Hlt)].
    + destruct (Nat.lt_ge_cases j i) as [Hlt|Hge].
      * destruct (inv_closed _ _ _ _ _ Hinv j q u lq p Hlt Hj Hp)
          as (_ & u' & lp & Hin & Hlp).
        apply In_nth_error in Hin. destruct Hin as (jp & Hjp).
        left. exists jp, u', lp. split; [exact Hjp|lia].
      * right. exists j, (WorkItem q u, lq). simpl. repeat split; [lia|exact Hj|lia].
    + right. exists j, y. repeat split; [lia|exact Hj|lia].
Qed.

(** No walk to the target is shorter than the entries still to be
    visited allow. *)
Lemma route_inv_no_short (i : nat) (aw : list (work_item * nat)) (lim : nat) :
  route_inv tbl from to i aw ->
  (forall j y, i <= j -> nth_error aw j = Some y -> lim <= snd y) ->
  forall m, m < lim -> ~ walk tbl (S m) from to.
Proof.
  intros Hinv Hlim m Hm Hwalk.
  apply walk_last in Hwalk. destruct Hwalk as (p & Hp & Hto).
  destruct (route_inv_reaches i aw Hinv m p Hp)
    as [(j & u & lp & Hj & Hle)|(j & y & Hij & Hj & Hlt)].
  - destruct (Nat.lt_ge_cases j i) as [Hlt|Hge].
    + destruct (inv_closed _ _ _ _ _ Hinv j p u lp to Hlt Hj Hto) as [Hne _].
      now apply Hne.
    + specialize (Hlim j _ Hge Hj). simpl in Hlim. lia.
  - specialize (Hlim j y Hij Hj). lia.
Qed.

Lemma route_inv_exit (i : nat) (aw : list (work_item * nat)) :
  route_inv tbl from to i aw ->
  nth_error aw i = None ->
  route_post tbl from to None.
Proof.
  intros Hinv Hend. right. intros k.
  apply (route_inv_no_short i aw (S k) Hinv); [|lia].
  intros j y Hij Hj. exfalso.
  apply nth_error_None in Hend.
  assert (j < length aw) by (apply nth_error_Some; congruence). lia.
Qed.

Lemma route_inv_return (i : nat) (aw : list (work_item * nat))
    (a : string) (v : option string) (l : nat) :
  route_inv tbl from to i aw ->
  nth_error aw i = Some (WorkItem a v, l) ->
  In to (neighbours_of tbl a) ->
  route_post tbl from to v.
Proof.
  intros Hinv Hi Hto.
  destruct i as [|i].
  - rewrite (inv_head _ _ _ _ _ Hinv) in Hi. injection Hi as <- <- <-.
    now left.
  - destruct (inv_via _ _ _ _ _ Hinv i a v l Hi) as (h & l' & -> & -> & Hvia).
    assert (Hsorted : forall j y, S i <= j -> nth_error aw j = Some y -> S l' <= snd y).
    { intros j y Hij Hj.
      apply (inv_sorted _ _ _ _ _ Hinv (S i) j (WorkItem a (Some h), S l') y Hij Hi Hj). }
    pose proof (route_inv_no_short (S i) aw (S l') Hinv Hsorted) as Hshort.
    split; [|split].
    + intros Hdirect.
      destruct (inv_closed _ _ _ _ _ Hinv 0 from None 0 to) as [Hne _];
        [lia|apply (inv_head _ _ _ _ _ Hinv)|exact Hdirect|].
      now apply Hne.
    + exists (S l'). apply walk_snoc with (p := a); [|exact Hto].
      apply (inv_reach _ _ _ _ _ Hinv a (Some h)). eapply nth_error_In. exact Hi.
    + intros Hblank. destruct (Hvia Hblank) as (_ & Hh & Hwalk).
      split; [exact Hh|]. exists (S l'). split.
      * now apply walk_snoc with (p := a).
      * intros m Hm. destruct (Nat.lt_ge_cases m (S l')) as [Hlt|Hge]; [|lia].
        exfalso. exact (Hshort m Hlt Hm).
Qed.

Lemma annotate_In (l : nat) (added : list work_item) (y : work_item * nat) :
  In y (annotate l added) <-> exists w, y = (w, S l) /\ In w added.
Proof.
  unfold annotate. rewrite in_map_iff. split.
  - intros (w & <- & Hw). now exists w.
  - intros (w & -> & Hw). now exists w.
Qed.

Lemma route_inv_step (i : nat) (aw : list (work_item * nat))
    (a : string) (v : option string) (l : nat) (added : list work_item) :
  route_inv tbl from to i aw ->
  nth_error aw i = Some (WorkItem a v, l) ->
  List.NoDup (map at_ added) ->
  (forall w, In w added ->
     In (at_ w) (neighbours_of tbl a) /\ via w = via_or v (at_ w) /\
     ~ In (at_ w) (map at_ (map fst aw)) /\ at_ w <> to) ->
  ~ In to (neighbours_of tbl a) ->
  (forall x, In x (neighbours_of tbl a) -> In x (map at_ (map fst aw ++ added))) ->
  route_inv tbl from to (S i) (aw ++ annotate l added).
Proof.
  intros Hinv Hi Hnd Hitems Hnot Hall.
  assert (Hlen : i < length aw) by (apply nth_error_Some; congruence).
  assert (Hats : forall aw0, map at_ (map fst aw0) = ats aw0).
  { intros aw0. unfold ats. now rewrite map_map. }
  assert (Hann : ats (annotate l added) = map at_ added).
  { unfold ats, annotate. now rewrite map_map. }
  assert (Hlevel : forall y, In y (aw ++ annotate l added) -> snd y <= S l).
  { intros y Hy. apply in_app_or in Hy. destruct Hy as [Hy|Hy].
    - apply (inv_bound _ _ _ _ _ Hinv _ y Hi Hy).
    - apply annotate_In in Hy. destruct Hy as (w & -> & _). simpl. lia. }
  assert (Hsorted : forall j k x y, j <= k ->
            nth_error (aw ++ annotate l added) j = Some x ->
            nth_error (aw ++ annotate l added) k = Some y -> snd x <= snd y).
  { intros j k x y Hjk Hx Hy.
    destruct (Nat.lt_ge_cases k (length aw)) as [Hk|Hk].
    - rewrite nth_error_app1 in Hx, Hy by lia.
      apply (inv_sorted _ _ _ _ _ Hinv j k x y Hjk Hx Hy).
    - rewrite (nth_error_app2 _ _ Hk) in Hy. apply nth_error_In in Hy.
      apply annotate_In in Hy. destruct Hy as (w & -> & _). simpl.
      apply Hlevel. eapply nth_error_In. exact Hx. }
  constructor.
  - rewrite nth_error_app1 by lia. apply (inv_head _ _ _ _ _ Hinv).
  - unfold ats. rewrite map_app. fold (ats aw) (ats (annotate l added)).
    rewrite Hann. apply List.NoDup_app.
    + apply (inv_nodup _ _ _ _ _ Hinv).
    + exact Hnd.
    + intros x Hx Hx'. apply in_map_iff in Hx'. destruct Hx' as (w & <- & Hw).
      destruct (Hitems w Hw) as (_ & _ & Hfresh & _). apply Hfresh.
      now rewrite Hats.
  - intros x Hx. unfold ats in Hx. rewrite map_app in Hx.
    apply in_app_or in Hx. destruct Hx as [Hx|Hx].
    + apply (inv_listed _ _ _ _ _ Hinv x Hx).
    + fold (ats (annotate l added)) in Hx. rewrite Hann in Hx.
      apply in_map_iff in Hx. destruct Hx as (w & <- & Hw).
      right. apply neighbours_listed with (a := a). now apply Hitems.
  - exact Hsorted.
  - intros xi y Hxi Hy.
    specialize (Hsorted i (S i) (WorkItem a v, l) xi).
    rewrite nth_error_app1 in Hsorted by lia.
    specialize (Hsorted ltac:(lia) Hi Hxi). simpl in Hsorted.
    specialize (Hlevel y Hy). lia.
  - intros a' v' l' Hin. apply in_app_or in Hin. destruct Hin as [Hin|Hin].
    + apply (inv_reach _ _ _ _ _ Hinv a' v' l' Hin).
    + apply annotate_In in Hin. destruct Hin as (w & [= <- ->] & Hw).
      apply walk_snoc with (p := a).
      * apply (inv_reach _ _ _ _ _ Hinv a v l). eapply nth_error_In. exact Hi.
      * now destruct (Hitems _ Hw) as (Hat & _).
  - intros j a' v' l' Hj.
    destruct (Nat.lt_ge_cases (S j) (length aw)) as [Hk|Hk].
    + rewrite nth_error_app1 in Hj by lia.
      apply (inv_via _ _ _ _ _ Hinv j a' v' l' Hj).
    + rewrite (nth_error_app2 _ _ Hk) in Hj. apply nth_error_In in Hj.
      apply annotate_In in Hj. destruct Hj as (w & [= <- ->] & Hw).
      destruct (Hitems _ Hw) as (Hat & Hvia & _ & _).
      simpl in Hat, Hvia. subst v'. rename a' into x.
      destruct i as [|i].
      * rewrite (inv_head _ _ _ _ _ Hinv) in Hi. injection Hi as <- <- <-.
        exists x, 0. simpl. repeat split; try reflexivity; try assumption.
        intros ->. contradiction.
      * destruct (inv_via _ _ _ _ _ Hinv i a v l Hi) as (h & l0 & -> & -> & Hh).
        destruct (String.eqb_spec h "") as [->|Hne].
        -- exists x, (S l0). simpl. split; [reflexivity|]. split; [reflexivity|].
           intros Hblank. destruct (Hh Hblank) as (Hfalse & _). congruence.
        -- exists h, (S l0). simpl.
           rewrite (proj2 (String.eqb_neq h "") Hne).
           split; [reflexivity|]. split; [reflexivity|].
           intros Hblank. destruct (Hh Hblank) as (_ & Hin & Hwalk).
           repeat split; try assumption.
           now apply walk_snoc with (p := a).
  - intros k a' v' l' x Hk Hka Hx.
    assert (Hk' : k < length aw) by lia.
    rewrite nth_error_app1 in Hka by exact Hk'.
    destruct (Nat.eq_dec k i) as [->|Hki].
    + rewrite Hi in Hka. injection Hka as <- <- <-.
      split; [intros ->; contradiction|].
      specialize (Hall x Hx). rewrite map_app in Hall.
      apply in_app_or in Hall. destruct Hall as [Hold|Hnew].
      * rewrite Hats in Hold. unfold ats in Hold. apply in_map_iff in Hold.
        destruct Hold as ([[x' u] lx] & Heq & Hin). simpl in Heq. subst x'.
        exists u, lx. split; [apply in_or_app; now left|].
        apply (inv_bound _ _ _ _ _ Hinv _ _ Hi Hin).
      * apply in_map_iff in Hnew. destruct Hnew as ([x' u] & Heq & Hin).
        simpl in Heq. subst x'.
        exists u, (S l). split; [|lia].
        apply in_or_app. right. apply annotate_In. now exists (WorkItem x u).
    + destruct (inv_closed _ _ _ _ _ Hinv k a' v' l' x ltac:(lia) Hka Hx)
        as (Hne & u & lx & Hin & Hle).
      split; [exact Hne|]. exists u, lx. split; [|exact Hle].
      apply in_or_app. now left.
Qed.

(** The outer loop returns within the fuel, with a work list without
    repeats and a value as promised. *)
Lemma route_loop_correct (fuel i : nat) (aw : list (work_item * nat)) :
  route_inv tbl from to i aw ->
  i <= length aw ->
  route_fuel tbl <= fuel + i ->
  exists r w,
    route_loop fuel tbl to i (map fst aw) = Some (r, w) /\
    List.NoDup (map at_ w) /\
    route_post tbl from to r.
Proof.
  revert i aw. induction fuel as [|fuel IH]; intros i aw Hinv Hi Hfuel.
  - pose proof (route_inv_length i aw Hinv). unfold route_fuel in Hfuel. lia.
  - simpl. rewrite nth_error_map.
    destruct (nth_error aw i) as [[[a v] l]|] eqn:Hnth; simpl.
    + destruct (scan to v (neighbours_of tbl a) (map fst aw)) as [res w'] eqn:Hscan.
      destruct (scan_spec _ _ _ _ _ _ Hscan) as (added & -> & Hnd & Hitems & Hres).
      assert (Hnodup : List.NoDup (map at_ (map fst aw ++ added))).
      { rewrite map_app. apply List.NoDup_app.
        - rewrite map_map. apply (inv_nodup _ _ _ _ _ Hinv).
        - exact Hnd.
        - intros x Hx Hx'. apply in_map_iff in Hx'. destruct Hx' as (w & <- & Hw).
          destruct (Hitems w Hw) as (_ & _ & Hfresh & _). now apply Hfresh. }
      destruct res as [r|].
      * destruct Hres as [-> Hto].
        exists v, (map fst aw ++ added). repeat split; [exact Hnodup|].
        apply (route_inv_return i aw a v l Hinv Hnth Hto).
      * destruct Hres as [Hnot Hall].
        pose proof (route_inv_step i aw a v l added Hinv Hnth Hnd Hitems Hnot Hall)
          as Hinv'.
        assert (Herase : map fst (aw ++ annotate l added) = map fst aw ++ added).
        { rewrite map_app. f_equal. unfold annotate. rewrite map_map. simpl.
          apply map_id. }
        rewrite <- Herase. apply IH.
        -- exact Hinv'.
        -- assert (i < length aw) by (apply nth_error_Some; congruence).
           rewrite length_app. lia.
        -- lia.
    + exists None, (map fst aw). repeat split.
      * rewrite map_map. apply (inv_nodup _ _ _ _ _ Hinv).
      * apply (route_inv_exit i aw Hinv Hnth).
Qed.
End FindRoute.

(** C2 (as stated, refuted): for a target that is a direct neighbour, so
    reachable, [findRoute] returns [null]; and where a neighbour of the
    source has the empty name, it returns a name that is no neighbour of
    the source. *)
Lemma findRoute_neighbour_is_null :
  findRoute "A" "B" line4 = None /\
  reachable line4 "A" "B" /\
  findRoute "A" "D" blank_table = Some "C" /\
  includes (neighbours_of blank_table "A") "C" = false.
Proof.
  split; [reflexivity|]. split; [|split; reflexivity].
  exists 1, "B". split; [now left|reflexivity].
Qed.

(** C2 (amended): [findRoute] returns within its bound for every table,
    source and target, the source being the target or not, and its work
    list holds no name twice; it returns [null] exactly when the target is
    a direct neighbour of the source or no walk of one or more links leads
    from the source to the target; when no neighbour of the source has the
    empty name, a returned name is a direct neighbour of the source and
    starts a walk to the target that, with the link from the source, is a
    shortest among the walks of one or more links. *)
Theorem findRoute_shortest (tbl : jsmap) (from to : string) :
  (findRoute_run from to tbl
     = Some (findRoute from to tbl, findRoute_work from to tbl) /\
   List.NoDup (map at_ (findRoute_work from to tbl))) /\
  (findRoute from to tbl = None <->
     In to (neighbours_of tbl from) \/ forall k, ~ walk tbl (S k) from to) /\
  (~ In "" (neighbours_of tbl from) ->
   forall h, findRoute from to tbl = Some h ->
     In h (neighbours_of tbl from) /\
     exists k, walk tbl k h to /\ forall m, walk tbl (S m) from to -> k <= m).
Proof.
  destruct (route_loop_correct tbl from to (route_fuel tbl) 0
              [(WorkItem from None, 0)])
    as (r & w & Hrun & Hnd & Hpost).
  { apply route_inv_init. }
  { simpl. lia. }
  { lia. }
  change (map fst [(WorkItem from None, 0)]) with [WorkItem from None] in Hrun.
  fold (findRoute_run from to tbl) in Hrun.
  assert (Hr : findRoute from to tbl = r).
  { unfold findRoute. now rewrite Hrun. }
  assert (Hw : findRoute_work from to tbl = w).
  { unfold findRoute_work. now rewrite Hrun. }
  rewrite Hr, Hw. split; [|split].
  - split; [exact Hrun|exact Hnd].
  - split.
    + intros ->. exact Hpost.
    + intros Hnone. destruct r as [h|]; [|reflexivity].
      destruct Hpost as (Hdirect & (k & Hwalk) & _).
      destruct Hnone as [Hin|Hno]; [contradiction|].
      exfalso. exact (Hno k Hwalk).
  - intros Hblank h ->. destruct Hpost as (_ & _ & Hvia). exact (Hvia Hblank).
Qed.

Lemma findRoute_shortest_witness :
  In "B" (neighbours_of line4 "A") /\
  exists k, walk line4 k "B" "D" /\ forall m, walk line4 (S m) "A" "D" -> k <= m.
Proof.
  apply (proj2 (proj2 (findRoute_shortest line4 "A" "D"))).
  - simpl. intros [H|H]; [discriminate H|exact H].
  - reflexivity.
Defined.

(** ** Router: [routeRequest] *)

(** C3 (as stated, refuted): [findRoute] yields a next hop, the empty
    name, and [routeRequest] raises the no-route error instead of sending
    to it. *)
Lemma routeRequest_empty_hop :
  includes (neighbors nest_blank) "T" = false /\
  findRoute (name nest_blank) "T" (connections (state nest_blank)) = Some "" /\
  routeRequest nest_blank "T" "ping" VNull = Throw (NoRoute "T").
Proof. repeat split. Qed.

(** C3 (amended): [routeRequest] hands a request for a direct neighbour
    to [request] as it is; otherwise it raises the no-route error when
    [findRoute] yields [null], which the ["route"] handler reports through
    the callback, and, when [findRoute] yields a hop that is not the empty
    name, it requests ["route"] with [{target, type, content}] from that
    hop. *)
Theorem routeRequest_cases (n : nest) (target type : string) (content : value) :
  (In target (neighbors n) ->
     routeRequest n target type content = Return (request n target type content)) /\
  (~ In target (neighbors n) ->
     findRoute (name n) target (connections (state n)) = None ->
     routeRequest n target type content = Throw (NoRoute target) /\
     forall net source,
       requestType (route_handler net) n (VRoute target type content) source
       = Some (Callback (NoRoute target) VUndefined)) /\
  (~ In target (neighbors n) ->
     forall via0,
       findRoute (name n) target (connections (state n)) = Some via0 ->
       via0 <> "" ->
       routeRequest n target type content
       = Return (RequestCall (name n) via0 "route" (VRoute target type content))).
Proof.
  unfold routeRequest. split; [|split].
  - intros Hin. now rewrite (proj2 (includes_In _ _) Hin).
  - intros Hnot Hno.
    assert (Hthrow : routeRequest n target type content = Throw (NoRoute target)).
    { unfold routeRequest. rewrite (proj2 (includes_not_In _ _) Hnot).
      now rewrite Hno. }
    split; [exact Hthrow|].
    intros net source. unfold requestType, route_handler. now rewrite Hthrow.
  - intros Hnot via0 Hvia Hne.
    rewrite (proj2 (includes_not_In _ _) Hnot), Hvia.
    now rewrite (proj2 (String.eqb_neq via0 "") Hne).
Qed.

Lemma routeRequest_cases_witness :
  routeRequest nest_a "B" "ping" VNull = Return (RequestCall "A" "B" "ping" VNull) /\
  routeRequest nest_a "Z" "ping" VNull = Throw (NoRoute "Z") /\
  routeRequest nest_a "D" "ping" VNull
    = Return (RequestCall "A" "B" "route" (VRoute "D" "ping" VNull)).
Proof.
  split; [|split].
  - apply (proj1 (routeRequest_cases nest_a "B" "ping" VNull)). simpl. tauto.
  - apply (proj1 (proj2 (routeRequest_cases nest_a "Z" "ping" VNull))).
    + simpl. intros [H|H]; [discriminate H|exact H].
    + reflexivity.
  - apply (proj2 (proj2 (routeRequest_cases nest_a "D" "ping" VNull))).
    + simpl. intros [H|H]; [discriminate H|exact H].
    + reflexivity.
    + discriminate.
Defined.

(** ** Distributed Lookup *)

Lemma without_In (x y : string) (l : list string) :
  In y (without x l) -> In y l.
Proof. unfold without. intros H. now apply List.filter_In in H. Qed.

(** When every candidate can be routed to and brings no value, the
    search fails with the not-found error, whatever the draws: a rejected
    request is passed over. *)
Lemma next_exhausts (net : network_behaviour) (draw : nat -> nat) (n : nest)
    (key : string) (k : nat) (sources : list string) :
  (forall s, In s sources ->
     exists rc, routeRequest n s "storage" (VStr key) = Return rc /\
                no_answer (net rc)) ->
  next net draw n key k sources = Return (Rejected NotFound).
Proof.
  funelim (next net draw n key k sources); intros Hall.
  - reflexivity.
  - set (source := nth _ (s0 :: rest) s0) in *.
    assert (Hin : In source (s0 :: rest)).
    { apply nth_In. unfold random_index. apply Nat.mod_upper_bound. simpl. lia. }
    destruct (Hall source Hin) as (rc & Hrc & Hno).
    assert (Hrest : next net draw n key (S k) (without source (s0 :: rest))
                    = Return (Rejected NotFound)).
    { apply (H rc VNull). intros s Hs. apply Hall. now apply without_In in Hs. }
    rewrite Hrc, Hrest.
    destruct (net rc) as [|v|r]; simpl in *; [contradiction| |reflexivity].
    now rewrite Hno.
Qed.

(** A value in the nest's own storage is returned without any request. *)
Lemma findInStorage_local (net : network_behaviour) (draw : nat -> nat)
    (n : nest) (key : string) :
  not_nullish (readStorage n key) = true ->
  findInStorage net draw n key = Fulfilled (readStorage n key).
Proof. intros Hfound. unfold findInStorage, storage. simpl. now rewrite Hfound. Qed.

(** C6 (the code at the failing input): the only candidate has no route,
    [routeRequest] raises inside [next], and the lookup rejects with that
    error and not with the not-found error, whatever the network answers
    and whatever the random draws are. *)
Theorem findInStorage_no_route_escapes (net : network_behaviour)
    (draw : nat -> nat) :
  without (name nest_partial) (network nest_partial) = ["D"] /\
  findInStorage net draw nest_partial "scalpel" = Rejected (NoRoute "D") /\
  NoRoute "D" <> NotFound.
Proof.
  split; [reflexivity|split].
  - unfold findInStorage, findInRemoteStorage. simpl. simp next.
    cbv zeta. unfold random_index. simpl length. rewrite Nat.mod_1_r.
    reflexivity.
  - discriminate.
Qed.

(** ** [Promise_all] *)

Lemma array_get_set (l : list (option value)) (i j : nat) (v : value) :
  array_get (array_set l i v) j = if Nat.eqb j i then Some v else array_get l j.
Proof.
  unfold array_get. revert l j.
  induction i as [|i IH]; intros l j.
  - destruct l, j; simpl; try reflexivity. now destruct j.
  - destruct l as [|h t], j as [|j]; simpl; try reflexivity.
    + rewrite IH. destruct (Nat.eqb j i); [reflexivity|]. now destruct j.
    + apply IH.
Qed.

Lemma array_set_length (l : list (option value)) (i : nat) (v : value) :
  length (array_set l i v) = Nat.max (length l) (S i).
Proof.
  revert l. induction i as [|i IH]; intros [|h t]; simpl; try lia.
  - rewrite IH. simpl. lia.
  - rewrite IH. lia.
Qed.

Lemma all_react_settled_sticky promises (l : list nat) (st : all_state) :
  settled st <> NotSettled ->
  settled (fold_left (fun st i => all_react promises i st) l st) = settled st.
Proof.
  revert st. induction l as [|i l IH]; intros st Hst; simpl; [reflexivity|].
  assert (Hsame : settled (all_react promises i st) = settled st).
  { unfold all_react.
    destruct (nth_error promises i) as [[|v|r]|]; simpl; try reflexivity.
    - destruct (Z.eqb _ _); [|reflexivity]. now destruct (settled st).
    - now destruct (settled st). }
  rewrite IH; [exact Hsame|]. now rewrite Hsame.
Qed.

Lemma fulfilled_in_bound promises (l : list nat) :
  List.NoDup l -> length (fulfilled_in promises l) <= length promises.
Proof.
  intros Hnd.
  enough (length (fulfilled_in promises l) <= length (seq 0 (length promises)))
    as H by now rewrite List.length_seq in H.
  apply List.NoDup_incl_length.
  - now apply List.NoDup_filter.
  - intros j Hj. apply List.filter_In in Hj. destruct Hj as [_ Hj].
    apply in_seq. split; [lia|]. simpl.
    apply nth_error_Some. destruct (nth_error promises j); [discriminate|discriminate Hj].
Qed.

Lemma fulfilled_in_snoc promises (l : list nat) (i : nat) :
  fulfilled_in promises (l ++ [i])
  = fulfilled_in promises l ++
    match fulfilled_value (nth_error promises i) with
    | Some _ => [i]
    | None => []
    end.
Proof.
  unfold fulfilled_in. rewrite List.filter_app. simpl.
  now destruct (fulfilled_value (nth_error promises i)).
Qed.

(** Membership in a list with one more index at its end. *)
Lemma in_dec_snoc {A : Type} (order : list nat) (i j : nat) (a b : A) :
  ~ In i order ->
  (if in_dec Nat.eq_dec j (order ++ [i]) then a else b)
  = if Nat.eqb j i then a else if in_dec Nat.eq_dec j order then a else b.
Proof.
  intros Hi.
  destruct (in_dec Nat.eq_dec j (order ++ [i])) as [Hin|Hout];
    destruct (Nat.eqb_spec j i) as [Heq|Hji]; try reflexivity;
    destruct (in_dec Nat.eq_dec j order) as [Hj|Hj]; try reflexivity.
  - apply in_app_or in Hin. destruct Hin as [Hin|[Heq|[]]]; [tauto|congruence].
  - exfalso. apply Hout, in_or_app. right. left. now symmetry.
  - exfalso. apply Hout, in_or_app. right. left. now symmetry.
  - exfalso. apply Hout, in_or_app. now left.
Qed.

(** The state after the reactions [order], none of them to a rejection. *)
Lemma all_run_fulfilled promises (order : list nat) :
  promises <> [] ->
  List.NoDup order ->
  (forall j, In j order -> is_rejected (nth_error promises j) = false) ->
  let st := fold_left (fun st i => all_react promises i st) order
              (AllState [] (Z.of_nat (length promises)) NotSettled) in
  remaining st
    = (Z.of_nat (length promises) - Z.of_nat (length (fulfilled_in promises order)))%Z /\
  settled st
    = (if Nat.eqb (length (fulfilled_in promises order)) (length promises)
       then ResolvedWithResults else NotSettled) /\
  (forall j, array_get (results st) j
             = if in_dec Nat.eq_dec j order
               then fulfilled_value (nth_error promises j) else None) /\
  length (results st) <= length promises.
Proof.
  intros Hne. induction order as [|i order IH] using rev_ind; intros Hnd Hrej st.
  - subst st. simpl. repeat split.
    + lia.
    + destruct promises; [congruence|reflexivity].
    + intros j. unfold array_get. now destruct j.
    + lia.
  - assert (Hnd' : List.NoDup order).
    { apply List.NoDup_app_remove_r in Hnd. exact Hnd. }
    assert (Hi : ~ In i order).
    { intros Hin. apply List.NoDup_remove_2 in Hnd. rewrite app_nil_r in Hnd. tauto. }
    specialize (IH Hnd'). cbv zeta in IH.
    destruct IH as (Hrem & Hset & Hget & Hlen).
    { intros j Hj. apply Hrej, in_or_app. now left. }
    pose proof (fulfilled_in_bound promises (order ++ [i]) Hnd) as Hbound.
    rewrite fulfilled_in_snoc, length_app in Hbound.
    subst st. rewrite fold_left_app. simpl.
    set (st0 := fold_left _ order _) in *.
    rewrite fulfilled_in_snoc, length_app.
    assert (Hri : is_rejected (nth_error promises i) = false).
    { apply Hrej, in_or_app. right. now left. }
    assert (Hidle : fulfilled_value (nth_error promises i) = None ->
              forall j, array_get (results st0) j
                        = if in_dec Nat.eq_dec j (order ++ [i])
                          then fulfilled_value (nth_error promises j) else None).
    { intros Hnone j. rewrite (in_dec_snoc order i j _ _ Hi), Hget.
      destruct (Nat.eqb_spec j i) as [->|_]; [|reflexivity].
      rewrite Hnone. now destruct (in_dec Nat.eq_dec i order). }
    unfold all_react.
    destruct (nth_error promises i) as [[|v|r]|] eqn:Hpi; simpl in *;
      try discriminate Hri.
    + rewrite Nat.add_0_r. repeat split; try assumption. now apply Hidle.
    + assert (Hlt : i < length promises).
      { apply nth_error_Some. now rewrite Hpi. }
      repeat split.
      * lia.
      * rewrite Hset.
        destruct (Nat.eqb_spec (length (fulfilled_in promises order)) (length promises));
          [lia|].
        destruct (Z.eqb_spec (remaining st0 - 1) 0);
          destruct (Nat.eqb_spec (length (fulfilled_in promises order) + 1)
                      (length promises)); try reflexivity; lia.
      * intros j. rewrite array_get_set, Hget, (in_dec_snoc order i j _ _ Hi).
        destruct (Nat.eqb_spec j i) as [->|_]; [now rewrite Hpi|reflexivity].
      * rewrite array_set_length. lia.
    + rewrite Nat.add_0_r. repeat split; try assumption. now apply Hidle.
Qed.

Lemma fulfilled_in_all (values : list value) (order : list nat) :
  (forall j, In j order -> j < length values) ->
  fulfilled_in (map Fulfilled values) order = order.
Proof.
  intros Hin. unfold fulfilled_in.
  induction order as [|i order IH]; simpl; [reflexivity|].
  assert (Hi : i < length values) by (apply Hin; now left).
  rewrite nth_error_map.
  destruct (nth_error values i) eqn:Hv; simpl.
  - f_equal. apply IH. intros j Hj. apply Hin. now right.
  - apply nth_error_None in Hv. lia.
Qed.

(** C9: [Promise_all] of an empty array is fulfilled at once with the empty
    array; once every input promise is fulfilled and its callback has run,
    in whatever order, it is fulfilled with the values at the indices of
    their promises; if promises reject, it is rejected with the reason of
    the one whose rejection is handled first. *)
Theorem Promise_all_settles :
  (forall order, Promise_all [] order = Fulfilled []) /\
  (forall values order,
     Permutation order (seq 0 (length values)) ->
     Promise_all (map Fulfilled values) order = Fulfilled (map Some values)) /\
  (forall promises before i after reason,
     List.NoDup (before ++ i :: after) ->
     nth_error promises i = Some (Rejected reason) ->
     (forall j, In j before -> is_rejected (nth_error promises j) = false) ->
     Promise_all promises (before ++ i :: after) = Rejected reason).
Proof.
  split; [|split].
  - intros order. reflexivity.
  - intros values order Hperm.
    destruct values as [|v0 values'] eqn:Hvalues.
    { reflexivity. }
    rewrite <- Hvalues in *.
    assert (Hn : length values <> 0) by (subst values; simpl; lia).
    assert (Hnd : List.NoDup order).
    { eapply Permutation_NoDup; [symmetry; exact Hperm|apply seq_NoDup]. }
    assert (Hrange : forall j, In j order -> j < length values).
    { intros j Hj. eapply Permutation_in in Hj; [|exact Hperm].
      apply in_seq in Hj. lia. }
    assert (Hall : forall j, j < length values -> In j order).
    { intros j Hj. eapply Permutation_in; [symmetry; exact Hperm|].
      apply in_seq. lia. }
    assert (Hlen : length order = length values).
    { apply Permutation_length in Hperm. now rewrite List.length_seq in Hperm. }
    pose proof (all_run_fulfilled (map Fulfilled values) order) as Hinv.
    cbv zeta in Hinv. rewrite fulfilled_in_all in Hinv by exact Hrange.
    rewrite length_map, Hlen, Nat.eqb_refl in Hinv.
    destruct Hinv as (_ & Hset & Hget & Hle).
    { intros Heq. apply (f_equal (@length _)) in Heq. rewrite length_map in Heq.
      simpl in Heq. lia. }
    { exact Hnd. }
    { intros j Hj. rewrite nth_error_map.
      now destruct (nth_error values j). }
    unfold Promise_all, Promise_all_run.
    rewrite length_map.
    destruct (Z.eqb_spec (Z.of_nat (length values)) 0) as [Hz|_]; [lia|].
    rewrite Hset. f_equal.
    apply List.nth_error_ext. intros j.
    rewrite nth_error_map.
    destruct (Nat.lt_ge_cases j (length values)) as [Hj|Hj].
    + specialize (Hget j). unfold array_get in Hget.
      destruct (in_dec Nat.eq_dec j order) as [_|Hno]; [|now apply Hall in Hj].
      rewrite nth_error_map in Hget.
      destruct (nth_error values j) as [v|] eqn:Hv;
        [|apply nth_error_None in Hv; lia].
      simpl in Hget |- *.
      match type of Hget with
      | match nth_error ?r j with _ => _ end = _ =>
          destruct (nth_error r j) as [[w|]|]; congruence
      end.
    + rewrite (proj2 (nth_error_None values j) Hj). simpl.
      apply nth_error_None. lia.
  - intros promises before i after reason Hnd Hi Hbefore.
    assert (Hne : promises <> []).
    { intros ->. now destruct i. }
    assert (Hndb : List.NoDup before).
    { now apply List.NoDup_app_remove_r in Hnd. }
    pose proof (all_run_fulfilled promises before Hne Hndb Hbefore) as Hinv.
    cbv zeta in Hinv. destruct Hinv as (_ & Hset & _ & _).
    assert (Hlt : length (fulfilled_in promises before) < length promises).
    { assert (Hnd2 : List.NoDup (i :: fulfilled_in promises before)).
      { constructor.
        - intros Hin. apply List.filter_In in Hin. destruct Hin as [Hin _].
          apply List.NoDup_remove_2 in Hnd. apply Hnd, in_or_app. now left.
        - now apply List.NoDup_filter. }
      enough (length (i :: fulfilled_in promises before)
              <= length (seq 0 (length promises))) as H
        by (rewrite List.length_seq in H; simpl in H; lia).
      apply List.NoDup_incl_length; [exact Hnd2|].
      intros j [<-|Hj]; apply in_seq; split; try lia; simpl.
      - apply nth_error_Some. now rewrite Hi.
      - apply List.filter_In in Hj. destruct Hj as [_ Hj].
        apply nth_error_Some.
        destruct (nth_error promises j); [discriminate|discriminate Hj]. }
    unfold Promise_all, Promise_all_run.
    destruct (Z.eqb_spec (Z.of_nat (length promises)) 0) as [Hz|_].
    { destruct promises; [congruence|simpl in Hz; lia]. }
    rewrite fold_left_app. simpl.
    set (st0 := fold_left _ before _) in *.
    rewrite all_react_settled_sticky.
    + unfold all_react. rewrite Hi. simpl. rewrite Hset.
      destruct (Nat.eqb_spec (length (fulfilled_in promises before)) (length promises));
        [lia|reflexivity].
    + unfold all_react. rewrite Hi. simpl. rewrite Hset.
      destruct (Nat.eqb_spec (length (fulfilled_in promises before)) (length promises));
        [lia|discriminate].
Qed.

Lemma Promise_all_witness :
  Promise_all [Fulfilled (VStr "a"); Fulfilled (VStr "b"); Fulfilled (VStr "c")] [2; 0; 1]
    = Fulfilled [Some (VStr "a"); Some (VStr "b"); Some (VStr "c")] /\
  Promise_all [Fulfilled (VStr "a"); Rejected (VStr "no"); Rejected (VStr "late")] [0; 1; 2]
    = Rejected (VStr "no").
Proof.
  split.
  - apply (proj1 (proj2 Promise_all_settles) [VStr "a"; VStr "b"; VStr "c"] [2; 0; 1]).
    simpl.
    apply Permutation_sym.
    apply (perm_trans (l' := [0; 2; 1])).
    + apply perm_skip, perm_swap.
    + apply perm_swap.
  - apply (proj2 (proj2 Promise_all_settles)
             [Fulfilled (VStr "a"); Rejected (VStr "no"); Rejected (VStr "late")]
             [0] 1 [2] (VStr "no")).
    + repeat constructor; simpl; intuition discriminate.
    + reflexivity.
    + intros j [<-|[]]. reflexivity.
Defined.

(** * Further properties *)

(** ** Request/Retry Engine, for every transport *)

Lemma schedule_In (t : nat) (e : event) (q : list (nat * event)) x :
  In x (schedule t e q) <-> x = (t, e) \/ In x q.
Proof.
  induction q as [|[t' e'] q IH]; simpl.
  - intuition congruence.
  - destruct (Nat.leb t' t); simpl; rewrite ?IH; intuition congruence.
Qed.

Lemma schedule_weight (t : nat) (e : event) (q : list (nat * event)) :
  queue_weight (schedule t e q) = event_weight e + queue_weight q.
Proof.
  unfold queue_weight. induction q as [|[t' e'] q IH]; simpl; [lia|].
  destruct (Nat.leb t' t); simpl; [rewrite IH|]; lia.
Qed.

Lemma schedule_timers (t : nat) (e : event) (q : list (nat * event)) :
  length (List.filter is_timer (schedule t e q))
  = (if is_timer (t, e) then 1 else 0) + length (List.filter is_timer q).
Proof.
  induction q as [|[t' e'] q IH]; simpl.
  - now destruct (is_timer (t, e)).
  - destruct (Nat.leb t' t); simpl.
    + destruct (is_timer (t', e')); simpl; rewrite IH; lia.
    + now destruct (is_timer (t, e)).
Qed.

Lemma no_timer_In (q : list (nat * event)) (t n : nat) :
  length (List.filter is_timer q) = 0 -> ~ In (t, TimerFires n) q.
Proof.
  intros Hlen Hin.
  assert (Hf : In (t, TimerFires n) (List.filter is_timer q)).
  { apply List.filter_In. now split. }
  destruct (List.filter is_timer q); [contradiction|discriminate].
Qed.

Lemma resolve_settles (p : promise value) (v : value) : resolve p v <> Pending.
Proof. destruct p; discriminate. Qed.

Lemma reject_settles (p : promise value) (v : value) : reject p v <> Pending.
Proof. destruct p; discriminate. Qed.

Lemma attempt_queue_weight (tr : transport) (rc : request_call) (n : nat)
    (st : engine) :
  queue_weight (queue (attempt tr rc n st))
  <= 2 + 2 * (3 - n) + queue_weight (queue st).
Proof.
  unfold attempt. cbn [queue]. rewrite schedule_weight.
  destruct (tr rc n) as [[[d failed] v]|]; [rewrite schedule_weight|];
    cbn [event_weight]; lia.
Qed.

(** Running an event uses up at least one unit of the queue's weight. *)
Lemma run_event_weight (tr : transport) (rc : request_call) (e : event)
    (st : engine) :
  queue_weight (queue (run_event tr rc e st)) + 1
  <= event_weight e + queue_weight (queue st).
Proof.
  destruct e as [n|failed v]; cbn [run_event].
  - destruct (done st); [cbn [event_weight]; lia|].
    destruct (Nat.ltb_spec n 3) as [Hn|Hn].
    + pose proof (attempt_queue_weight tr rc (n + 1) st).
      cbn [event_weight]. lia.
    + cbn [event_weight queue]. lia.
  - cbn [event_weight queue]. lia.
Qed.

Lemma run_quiesces (tr : transport) (rc : request_call) (fuel : nat) :
  forall st, queue_weight (queue st) <= fuel -> queue (run fuel tr rc st) = [].
Proof.
  induction fuel as [|fuel IH]; intros st Hw; simpl.
  - destruct (queue st) as [|[t e] q]; [reflexivity|].
    unfold queue_weight in Hw. simpl in Hw. destruct e; simpl in Hw; lia.
  - destruct (queue st) as [|[t e] q] eqn:Hq; [exact Hq|].
    apply IH.
    pose proof (run_event_weight tr rc e
                  (Engine t (done st) (outcome st) (sent st) q)) as Hstep.
    unfold queue_weight in Hw. simpl in Hw, Hstep.
    fold (queue_weight q) in Hw, Hstep. lia.
Qed.

Lemma engine_inv_attempt (tr : transport) (rc : request_call) (st : engine) :
  done st = false ->
  length (List.filter is_timer (queue st)) = 0 ->
  length (sent st) < 3 ->
  sent st = firstn (length (sent st)) (send_times rc) ->
  now st = length (sent st) * retry_interval ->
  engine_inv rc (attempt tr rc (length (sent st) + 1) st).
Proof.
  intros Hdone Hnone Hlen Hsent Hnow.
  set (q := match tr rc (length (sent st) + 1) with
            | Some (d, failed, v) =>
                schedule (now st + d) (CallbackArrives failed v) (queue st)
            | None => queue st
            end).
  assert (Hq : length (List.filter is_timer q) = 0).
  { subst q. destruct (tr rc _) as [[[d failed] v]|]; [|exact Hnone].
    rewrite schedule_timers. simpl. lia. }
  assert (Hattempt : attempt tr rc (length (sent st) + 1) st =
            Engine (now st) (done st) (outcome st) (sent st ++ [(now st, rc)])
              (schedule (now st + retry_interval)
                 (TimerFires (length (sent st) + 1)) q)) by reflexivity.
  rewrite Hattempt. constructor; cbn [done outcome queue sent].
  - congruence.
  - intros _. exists (now st + retry_interval), (length (sent st) + 1).
    apply schedule_In. now left.
  - rewrite schedule_timers. simpl. lia.
  - intros t n Hin. apply schedule_In in Hin. destruct Hin as [Heq|Hin].
    + injection Heq as -> ->. rewrite length_app. simpl. split; lia.
    + exfalso. exact (no_timer_In q t n Hq Hin).
  - rewrite length_app. simpl. split; [lia|].
    rewrite Hnow. rewrite Hsent at 1.
    destruct (length (sent st)) as [|[|[|k]]]; try lia; reflexivity.
Qed.

Lemma engine_inv_step (tr : transport) (rc : request_call) (st : engine)
    (t : nat) (e : event) (q : list (nat * event)) :
  engine_inv rc st ->
  queue st = (t, e) :: q ->
  engine_inv rc (run_event tr rc e (Engine t (done st) (outcome st) (sent st) q)).
Proof.
  intros Hinv Hq.
  destruct Hinv as [Hdone Hlive Hone Htimer Hsent]. rewrite Hq in *.
  destruct e as [n|failed v]; cbn [run_event done outcome sent queue now].
  - (* the timer of attempt [n] *)
    destruct (Htimer t n (or_introl eq_refl)) as [Hn Ht].
    assert (Hnone : length (List.filter is_timer q) = 0).
    { simpl in Hone. lia. }
    destruct (done st) eqn:Hd.
    + constructor; cbn [done outcome sent queue]; try assumption.
      * intros Hp. now apply Hdone in Hp.
      * lia.
      * intros t' n' Hin. exfalso. exact (no_timer_In q t' n' Hnone Hin).
    + destruct (Nat.ltb_spec n 3) as [Hlt|Hge].
      * subst n.
        apply (engine_inv_attempt tr rc
                 (Engine t false (outcome st) (sent st) q)); cbn; try assumption.
        -- reflexivity.
        -- apply Hsent.
      * constructor; cbn [done outcome sent queue].
        -- intros _. apply reject_settles.
        -- intros Hp. now apply reject_settles in Hp.
        -- lia.
        -- intros t' n' Hin. exfalso. exact (no_timer_In q t' n' Hnone Hin).
        -- exact Hsent.
  - (* a callback *)
    constructor; cbn [done outcome sent queue].
    + intros _. destruct (truthy failed); [apply reject_settles|apply resolve_settles].
    + intros Hp. exfalso. revert Hp.
      destruct (truthy failed); [apply reject_settles|apply resolve_settles].
    + simpl in Hone. exact Hone.
    + intros t' n' Hin. apply Htimer. now right.
    + exact Hsent.
Qed.

Lemma engine_inv_run (tr : transport) (rc : request_call) (fuel : nat) :
  forall st, engine_inv rc st -> engine_inv rc (run fuel tr rc st).
Proof.
  induction fuel as [|fuel IH]; intros st Hinv; simpl; [exact Hinv|].
  destruct (queue st) as [|[t e] q] eqn:Hq; [exact Hinv|].
  apply IH. now apply engine_inv_step.
Qed.

Lemma engine_inv_start (tr : transport) (rc : request_call) :
  engine_inv rc (attempt tr rc 1 (Engine 0 false Pending [] [])).
Proof.
  apply (engine_inv_attempt tr rc (Engine 0 false Pending [] [])); cbn;
    try reflexivity; lia.
Qed.

(** X1: whatever the transport does, a call of [request] is over after at
    most six events: nothing is left pending, the promise is settled, and
    the request was sent once, twice or three times, at times 0, 250 and
    500. *)
Theorem request_always_settles (tr : transport) (rc : request_call) (fuel : nat) :
  queue (request_run (6 + fuel) tr rc) = [] /\
  outcome (request_run (6 + fuel) tr rc) <> Pending /\
  exists k, 1 <= k <= 3 /\
    sent (request_run (6 + fuel) tr rc) = firstn k (send_times rc).
Proof.
  pose proof (engine_inv_run tr rc (6 + fuel) _ (engine_inv_start tr rc)) as Hinv.
  fold (request_run (6 + fuel) tr rc) in Hinv.
  assert (Hq : queue (request_run (6 + fuel) tr rc) = []).
  { apply run_quiesces.
    pose proof (attempt_queue_weight tr rc 1 (Engine 0 false Pending [] [])) as Hw.
    change (queue_weight (queue (Engine 0 false Pending [] []))) with 0 in Hw.
    lia. }
  split; [exact Hq|]. split.
  - intros Hp. destruct (einv_live _ _ Hinv Hp) as (t & n & Hin).
    rewrite Hq in Hin. contradiction.
  - exists (length (sent (request_run (6 + fuel) tr rc))).
    exact (einv_sent _ _ Hinv).
Qed.

Lemma run_app (tr : transport) (rc : request_call) (a b : nat) :
  forall st, run (a + b) tr rc st = run b tr rc (run a tr rc st).
Proof.
  induction a as [|a IH]; intros st; [reflexivity|].
  cbn [Nat.add run].
  destruct (queue st) as [|[t e] q] eqn:Hq.
  - now rewrite run_idle.
  - apply IH.
Qed.

Lemma run_event_keeps_settled (tr : transport) (rc : request_call) (e : event)
    (st : engine) :
  outcome st <> Pending -> outcome (run_event tr rc e st) = outcome st.
Proof.
  intros Hs. destruct e as [n|failed v]; cbn [run_event].
  - destruct (done st); [reflexivity|].
    destruct (Nat.ltb n 3); [reflexivity|].
    cbn [outcome]. now destruct (outcome st).
  - cbn [outcome]. destruct (truthy failed); now destruct (outcome st).
Qed.

Lemma run_keeps_settled (tr : transport) (rc : request_call) (fuel : nat) :
  forall st, outcome st <> Pending -> outcome (run fuel tr rc st) = outcome st.
Proof.
  induction fuel as [|fuel IH]; intros st Hs; [reflexivity|].
  cbn [run]. destruct (queue st) as [|[t e] q]; [reflexivity|].
  rewrite IH.
  - now rewrite run_event_keeps_settled.
  - now rewrite run_event_keeps_settled.
Qed.

(** X2: the promise of [request] settles once: whatever events follow, a
    late callback or a timer, its state stays what it was. *)
Theorem request_settles_once (tr : transport) (rc : request_call)
    (fuel more : nat) :
  outcome (request_run fuel tr rc) <> Pending ->
  outcome (request_run (fuel + more) tr rc) = outcome (request_run fuel tr rc).
Proof.
  intros Hs. unfold request_run in *. rewrite run_app.
  now apply run_keeps_settled.
Qed.

Lemma request_settles_once_witness :
  outcome (request_run 3 late_transport ping_a_b)
    = Rejected (VErr (Timeout "Timed out")) /\
  queue (request_run 3 late_transport ping_a_b)
    = [(800, CallbackArrives VNull (VStr "pong"))] /\
  outcome (request_run (3 + 1) late_transport ping_a_b)
    = outcome (request_run 3 late_transport ping_a_b).
Proof.
  split; [reflexivity|]. split; [reflexivity|].
  apply (request_settles_once late_transport ping_a_b 3 1).
  vm_compute. discriminate.
Defined.

(** X3: when the callback of the first send arrives before the timer, the
    call is over with that one send: rejected with a truthy [failed],
    fulfilled with the value otherwise, and the timer then does nothing. *)
Theorem request_answered_at_once (tr : transport) (rc : request_call)
    (d : nat) (failed v : value) (fuel : nat) :
  tr rc 1 = Some (d, failed, v) ->
  d < retry_interval ->
  request_run (2 + fuel) tr rc =
    Engine retry_interval true
      (if truthy failed then Rejected failed else Fulfilled v)
      [(0, rc)] [].
Proof.
  intros Htr Hd. unfold request_run, attempt. rewrite Htr.
  cbn [now done outcome sent queue schedule Nat.add app].
  assert (Hle : Nat.leb d retry_interval = true) by (apply Nat.leb_le; lia).
  rewrite Hle.
  change (2 + fuel) with (S (S fuel)).
  erewrite run_next by reflexivity.
  cbn [run_event now done outcome sent queue reject resolve].
  erewrite run_next by reflexivity.
  cbn [run_event now done outcome sent queue].
  rewrite run_idle by reflexivity.
  now destruct (truthy failed).
Qed.

Lemma request_answered_at_once_witness :
  request_run 2 prompt_transport ping_a_b =
    Engine 250 true (Fulfilled (VStr "pong")) [(0, ping_a_b)] [].
Proof.
  apply (request_answered_at_once prompt_transport ping_a_b 20 VNull
           (VStr "pong") 0).
  - reflexivity.
  - unfold retry_interval. lia.
Defined.

(** ** Gossip Service, over a run of deliveries *)

Lemma gossip_handler_state (n : nest) (message source : string) :
  let n' := fst (gossip_handler n message source) in
  name n' = name n /\ neighbors n' = neighbors n /\
  connections (state n') = connections (state n) /\
  readStorage n' = readStorage n /\
  gossip (state n') =
    if includes (gossip (state n)) message then gossip (state n)
    else gossip (state n) ++ [message].
Proof.
  unfold gossip_handler.
  destruct (includes (gossip (state n)) message); cbn; repeat split.
Qed.

(** X4: over any sequence of ["gossip"] deliveries a nest forgets no
    message, records every message delivered, and, starting from a list
    without repeats, never records one twice; its name, neighbours and
    connections table stay as they were. *)
Theorem gossip_run_records (n : nest) (deliveries : list (string * string)) :
  List.NoDup (gossip (state n)) ->
  let n' := fst (gossip_run n deliveries) in
  List.NoDup (gossip (state n')) /\
  (forall x, In x (gossip (state n')) <->
             In x (gossip (state n)) \/ In x (map fst deliveries)) /\
  name n' = name n /\ neighbors n' = neighbors n /\
  connections (state n') = connections (state n).
Proof.
  revert n. induction deliveries as [|[m s] rest IH]; intros n Hnd.
  - cbn. repeat split; try assumption; tauto.
  - cbn [gossip_run].
    destruct (gossip_handler_state n m s) as (Hname & Hnb & Hconn & _ & Hg).
    destruct (gossip_handler n m s) as [n1 e1]. cbn [fst] in *.
    assert (Hnd1 : List.NoDup (gossip (state n1))).
    { rewrite Hg. destruct (includes (gossip (state n)) m) eqn:Hm; [exact Hnd|].
      apply NoDup_app; [exact Hnd|repeat constructor; simpl; tauto|].
      intros x Hx [<-|[]]. apply includes_not_In in Hm. contradiction. }
    specialize (IH n1 Hnd1). cbv zeta in IH.
    destruct (gossip_run n1 rest) as [n2 e2]. cbn [fst map] in *.
    destruct IH as (Hnd2 & Hin & Hname2 & Hnb2 & Hconn2).
    repeat split; try congruence.
    + intros Hx. apply Hin in Hx. rewrite Hg in Hx.
      destruct (includes (gossip (state n)) m) eqn:Hm.
      * destruct Hx as [Hx|Hx]; [now left|right; now right].
      * destruct Hx as [Hx|Hx]; [|right; now right].
        apply in_app_or in Hx. destruct Hx as [Hx|[<-|[]]]; [now left|].
        right. now left.
    + intros Hx. apply Hin. rewrite Hg.
      destruct (includes (gossip (state n)) m) eqn:Hm.
      * destruct Hx as [Hx|[<-|Hx]]; [now left| |now right].
        left. now apply includes_In.
      * destruct Hx as [Hx|[<-|Hx]]; [| |now right].
        -- left. apply in_or_app. now left.
        -- left. apply in_or_app. right. now left.
Qed.

Lemma gossip_run_records_witness :
  List.NoDup (gossip (state (fst (gossip_run nest_b
     [("news", "A"); ("old", "C"); ("news", "C")])))) /\
  gossip (state (fst (gossip_run nest_b
     [("news", "A"); ("old", "C"); ("news", "C")]))) = ["old"; "news"].
Proof.
  split; [|reflexivity].
  apply (gossip_run_records nest_b [("news", "A"); ("old", "C"); ("news", "C")]).
  repeat constructor. simpl. tauto.
Defined.

(** ** Topology Service: what an update changes *)

Lemma map_get_set_other (m : jsmap) (k k' : string) (v : list string) :
  k' <> k -> map_get (map_set m k v) k' = map_get m k'.
Proof.
  intros Hne. induction m as [|[k0 v0] m IH]; simpl.
  - now rewrite (proj2 (String.eqb_neq k k') (not_eq_sym Hne)).
  - destruct (String.eqb_spec k0 k) as [->|Hk]; simpl.
    + now rewrite (proj2 (String.eqb_neq k k') (not_eq_sym Hne)).
    + now rewrite IH.
Qed.

Lemma map_keys_set (m : jsmap) (k : string) (v : list string) :
  map_keys (map_set m k v) =
    if includes (map_keys m) k then map_keys m else map_keys m ++ [k].
Proof.
  unfold map_keys, includes. induction m as [|[k0 v0] m IH]; simpl; [reflexivity|].
  destruct (String.eqb_spec k0 k) as [->|Hk]; simpl; [reflexivity|].
  rewrite IH. now destruct (existsb _ (map fst m)).
Qed.

Lemma connections_handler_state (n : nest) (name0 : string)
    (neighbors0 : list string) (source : string) :
  let n' := fst (connections_handler n name0 neighbors0 source) in
  map_get (connections (state n')) name0 = Some neighbors0 /\
  (forall other, other <> name0 ->
     map_get (connections (state n')) other
     = map_get (connections (state n)) other) /\
  name n' = name n /\ neighbors n' = neighbors n.
Proof.
  cbv zeta. unfold connections_handler.
  destruct (stringified_eq _ _) eqn:Heq; cbn [fst].
  - apply stringified_eq_iff in Heq. now repeat split.
  - cbn [set_connections state connections name neighbors].
    rewrite map_get_set_same. repeat split.
    intros other Hne. now apply map_get_set_other.
Qed.

Lemma map_get_keys (m : jsmap) (k : string) (v : list string) :
  map_get m k = Some v -> includes (map_keys m) k = true.
Proof.
  intros Hget. apply includes_In. unfold map_keys.
  induction m as [|[k0 v0] m IH]; simpl in *; [discriminate|].
  destruct (String.eqb_spec k0 k) as [->|Hk]; [now left|right; now apply IH].
Qed.

(** X5: after the ["connections"] handler the table holds the received
    list for the name, whether it was new or not, and every other entry as
    before; the names the nest knows keep their order, with at most the
    one name added at the end, and stay without repeats; the record of
    gossip is untouched. *)
Theorem connections_handler_frame (n : nest) (name0 : string)
    (neighbors0 : list string) (source : string) :
  let n' := fst (connections_handler n name0 neighbors0 source) in
  map_get (connections (state n')) name0 = Some neighbors0 /\
  (forall other, other <> name0 ->
     map_get (connections (state n')) other
     = map_get (connections (state n)) other) /\
  network n' = (if includes (network n) name0 then network n
                else network n ++ [name0]) /\
  (List.NoDup (network n) -> List.NoDup (network n')) /\
  gossip (state n') = gossip (state n).
Proof.
  destruct (connections_handler_state n name0 neighbors0 source)
    as (Hget & Hother & _ & _).
  cbv zeta. split; [exact Hget|]. split; [exact Hother|].
  clear Hget Hother. unfold connections_handler.
  destruct (stringified_eq _ _) eqn:Heq; cbn [fst].
  - apply stringified_eq_iff in Heq.
    unfold network. rewrite (map_get_keys _ _ _ Heq). repeat split. tauto.
  - unfold network. cbn [set_connections state connections gossip].
    rewrite map_keys_set. repeat split.
    intros Hnd. destruct (includes (map_keys (connections (state n))) name0) eqn:Hin;
      [exact Hnd|].
    apply NoDup_app; [exact Hnd|repeat constructor; simpl; tauto|].
    intros x Hx [<-|[]]. apply includes_not_In in Hin. contradiction.
Qed.

(** ** Router: where requests go *)

Lemma findRoute_post (tbl : jsmap) (from to : string) :
  route_post tbl from to (findRoute from to tbl).
Proof.
  destruct (route_loop_correct tbl from to (route_fuel tbl) 0
              [(WorkItem from None, 0)])
    as (r & w & Hrun & _ & Hpost).
  { apply route_inv_init. }
  { simpl. lia. }
  { lia. }
  change (map fst [(WorkItem from None, 0)]) with [WorkItem from None] in Hrun.
  fold (findRoute_run from to tbl) in Hrun.
  unfold findRoute. now rewrite Hrun.
Qed.

Lemma connections_run_own_entry (n : nest)
    (updates : list (string * list string * string)) :
  map_get (connections (state n)) (name n) = Some (neighbors n) ->
  (forall name0 neighbors0 source,
     In (name0, neighbors0, source) updates ->
     name0 = name n -> neighbors0 = neighbors n) ->
  let n' := fst (connections_run n updates) in
  name n' = name n /\ neighbors n' = neighbors n /\
  map_get (connections (state n')) (name n') = Some (neighbors n').
Proof.
  revert n. induction updates as [|[[name0 neighbors0] source] rest IH];
    intros n Hown Hupd; cbv zeta.
  - cbn. now repeat split.
  - cbn [connections_run].
    pose proof (connections_handler_state n name0 neighbors0 source) as Hst.
    cbv zeta in Hst. destruct Hst as (Hget & Hother & Hname & Hnb).
    destruct (connections_handler n name0 neighbors0 source) as [n1 e1].
    cbn [fst] in *.
    assert (Hown1 : map_get (connections (state n1)) (name n1) = Some (neighbors n1)).
    { rewrite Hname, Hnb.
      destruct (String.eqb_spec name0 (name n)) as [Heq|Hne].
      - subst name0. rewrite Hget. f_equal.
        apply (Hupd (name n) neighbors0 source); [now left|reflexivity].
      - rewrite Hother by congruence. exact Hown. }
    specialize (IH n1 Hown1). cbv zeta in IH.
    destruct (connections_run n1 rest) as [n2 e2]. cbn [fst] in *.
    destruct IH as (Hname2 & Hnb2 & Hown2).
    { intros nm nb src Hin Heq. rewrite Hnb. rewrite Hname in Heq.
      apply (Hupd nm nb src); [now right|exact Heq]. }
    repeat split; congruence.
Qed.

(** X6: a nest's own entry, set when its table is set up, is still its
    list of neighbours after any sequence of ["connections"] updates in
    which no update names the nest itself with another list. *)
Theorem own_entry_kept (n : nest) (updates : list (string * list string * string)) :
  (forall name0 neighbors0 source,
     In (name0, neighbors0, source) updates ->
     name0 = name n -> neighbors0 = neighbors n) ->
  let n' := fst (connections_run (fst (init_connections n)) updates) in
  name n' = name n /\ neighbors n' = neighbors n /\
  map_get (connections (state n')) (name n) = Some (neighbors n).
Proof.
  intros Hupd.
  pose proof (connections_run_own_entry (fst (init_connections n)) updates) as Hrun.
  cbn [init_connections fst set_connections name neighbors state connections] in Hrun.
  cbv zeta in *.
  cbn [init_connections fst].
  destruct Hrun as (Hname & Hnb & Hown).
  - cbn [map_set map_get]. now rewrite String.eqb_refl.
  - exact Hupd.
  - repeat split; try assumption. now rewrite Hname, Hnb in Hown.
Qed.

Lemma own_entry_kept_witness :
  map_get (connections (state (fst (connections_run (fst (init_connections nest_b))
     [("A", ["B"], "A"); ("B", ["A"; "C"], "C"); ("C", ["B"; "D"], "C")]))))
    "B" = Some ["A"; "C"].
Proof.
  apply (own_entry_kept nest_b
           [("A", ["B"], "A"); ("B", ["A"; "C"], "C"); ("C", ["B"; "D"], "C")]).
  intros name0 neighbors0 source Hin Heq. simpl in Hin, Heq.
  destruct Hin as [H|[H|[H|[]]]]; injection H as H1 H2 H3; subst;
    try reflexivity; discriminate.
Defined.

(** X7: a nest whose own entry in its table is its list of neighbours,
    none of them with the empty name, sends what [routeRequest] sends to a
    direct neighbour only, routed or not, as the transport demands. *)
Theorem routeRequest_to_neighbour (n : nest) (target type : string)
    (content : value) (rc : request_call) :
  map_get (connections (state n)) (name n) = Some (neighbors n) ->
  ~ In "" (neighbors n) ->
  routeRequest n target type content = Return rc ->
  In (rc_target rc) (neighbors n) /\ rc_nest rc = name n.
Proof.
  intros Hown Hblank. unfold routeRequest.
  assert (Hnb : neighbours_of (connections (state n)) (name n) = neighbors n).
  { unfold neighbours_of. now rewrite Hown. }
  destruct (includes (neighbors n) target) eqn:Hdirect.
  - intros [= <-]. split; [|reflexivity]. now apply includes_In.
  - pose proof (findRoute_post (connections (state n)) (name n) target) as Hpost.
    destruct (findRoute (name n) target (connections (state n))) as [via0|];
      [|discriminate].
    destruct (String.eqb via0 ""); [discriminate|].
    intros [= <-]. split; [|reflexivity]. cbn.
    destruct Hpost as (_ & _ & Hvia). rewrite Hnb in Hvia.
    now destruct (Hvia Hblank).
Qed.

Lemma routeRequest_to_neighbour_witness :
  In "B" (neighbors nest_a) /\ "A" = name nest_a.
Proof.
  apply (routeRequest_to_neighbour nest_a "D" "ping" VNull
           (RequestCall "A" "B" "route" (VRoute "D" "ping" VNull))).
  - reflexivity.
  - simpl. intros [H|H]; [discriminate H|exact H].
  - reflexivity.
Defined.

Lemma nest_named_spec (nests : list nest) (x : string) (m : nest) :
  nest_named nests x = Some m -> In m nests /\ name m = x.
Proof.
  unfold nest_named. intros Hfind. apply find_some in Hfind.
  destruct Hfind as [Hin Heq]. split; [exact Hin|]. now apply String.eqb_eq.
Qed.

Lemma forward_reaches (tbl : jsmap) (nests : list nest) (target type : string)
    (content : value) :
  settled_network tbl nests ->
  forall fuel j n,
    In n nests -> j < fuel -> walk tbl (S j) (name n) target ->
    exists hops,
      forward nests fuel n target type content = Some (hops ++ [target]) /\
      length hops <= j /\
      chain tbl (name n) (hops ++ [target]).
Proof.
  intros Hnet. induction fuel as [|fuel IH]; intros j n Hn Hj Hwalk; [lia|].
  assert (Hnb : neighbors n = neighbours_of tbl (name n))
    by (apply (sn_neighbors _ _ Hnet); exact Hn).
  assert (Htbl : connections (state n) = tbl)
    by (apply (sn_table _ _ Hnet); exact Hn).
  assert (Hblank : ~ In "" (neighbours_of tbl (name n))).
  { intros Hin. apply (sn_no_blank _ _ Hnet).
    now apply neighbours_listed with (a := name n). }
  cbn [forward]. unfold routeRequest.
  destruct (includes (neighbors n) target) eqn:Hdirect.
  - exists []. cbn. repeat split; [lia|].
    rewrite <- Hnb. now apply includes_In.
  - apply includes_not_In in Hdirect. rewrite Hnb in Hdirect.
    pose proof (findRoute_post tbl (name n) target) as Hpost.
    rewrite Htbl.
    destruct (findRoute (name n) target tbl) as [h|].
    + destruct Hpost as (_ & _ & Hvia).
      destruct (Hvia Hblank) as (Hh & k & Hk & Hmin).
      assert (Hne : h <> "").
      { intros ->. contradiction. }
      rewrite (proj2 (String.eqb_neq h "") Hne). cbn [rc_target rc_content request].
      destruct (sn_named _ _ Hnet h) as (relay & Hrelay).
      { now apply neighbours_listed with (a := name n). }
      rewrite Hrelay.
      destruct (nest_named_spec _ _ _ Hrelay) as [Hin Hname].
      specialize (Hmin j Hwalk).
      destruct k as [|k].
      { simpl in Hk. subst h. contradiction. }
      destruct (IH k relay Hin ltac:(lia)) as (hops & Hfwd & Hlen & Hchain).
      { now rewrite Hname. }
      rewrite Hfwd. exists (h :: hops). cbn. repeat split; [lia|exact Hh|].
      now rewrite Hname in Hchain.
    + exfalso. destruct Hpost as [Hin|Hno]; [contradiction|].
      exact (Hno j Hwalk).
Qed.

(** X8: in a network whose nests all hold the same table of their
    neighbours, without empty names, a request for a target that some
    sequence of links reaches is handed from neighbour to neighbour and
    arrives: the nests it is sent to form a path along the links that ends
    at the target and is no longer than any such sequence. *)
Theorem forward_delivers (tbl : jsmap) (nests : list nest) (n : nest)
    (target type : string) (content : value) (j : nat) :
  settled_network tbl nests ->
  In n nests ->
  walk tbl (S j) (name n) target ->
  exists hops,
    forward nests (S j) n target type content = Some (hops ++ [target]) /\
    length hops <= j /\
    chain tbl (name n) (hops ++ [target]).
Proof.
  intros Hnet Hn Hwalk.
  apply (forward_reaches tbl nests target type content Hnet (S j) j n Hn);
    [lia|exact Hwalk].
Qed.

Lemma line4_settled : settled_network line4 line4_nests.
Proof.
  constructor.
  - intros m [<-|[<-|[<-|[<-|[]]]]]; reflexivity.
  - intros m [<-|[<-|[<-|[<-|[]]]]]; reflexivity.
  - intros x Hx. simpl in Hx.
    repeat (destruct Hx as [<-|Hx]; [eexists; reflexivity|]). contradiction.
  - simpl. intuition discriminate.
Qed.

Lemma forward_delivers_witness :
  exists hops,
    forward line4_nests 3 (line4_nest "A") "D" "ping" VNull = Some (hops ++ ["D"]) /\
    length hops <= 2 /\
    chain line4 "A" (hops ++ ["D"]).
Proof.
  apply (forward_delivers line4 line4_nests (line4_nest "A") "D" "ping" VNull 2).
  - exact line4_settled.
  - now left.
  - exists "B". split; [now left|]. exists "C". split; [right; now left|].
    exists "D". split; [right; now left|reflexivity].
Defined.

(** ** Distributed Lookup: what it finds *)

Lemma without_In_iff (x y : string) (l : list string) :
  In y (without x l) <-> In y l /\ y <> x.
Proof.
  unfold without. rewrite List.filter_In, negb_true_iff. split.
  - intros [Hin Hne]. split; [exact Hin|]. now apply String.eqb_neq.
  - intros [Hin Hne]. split; [exact Hin|]. now apply String.eqb_neq.
Qed.

Lemma pick_In (draw : nat -> nat) (k : nat) (s0 : string) (rest : list string) :
  In (nth (random_index draw k (length (s0 :: rest))) (s0 :: rest) s0) (s0 :: rest).
Proof.
  apply nth_In. unfold random_index. apply Nat.mod_upper_bound. simpl. lia.
Qed.

(** A value [next] settles with is a candidate's answer, and not [null]. *)
Lemma next_sound (net : network_behaviour) (draw : nat -> nat) (n : nest)
    (key : string) (k : nat) (sources : list string) (v : value) :
  settle (next net draw n key k sources) = Fulfilled v ->
  not_nullish v = true /\
  exists s rc, In s sources /\
    routeRequest n s "storage" (VStr key) = Return rc /\ net rc = Fulfilled v.
Proof.
  funelim (next net draw n key k sources); intros Hv.
  - discriminate Hv.
  - set (source := nth _ (s0 :: rest) s0) in *.
    pose proof (pick_In draw k s0 rest) as Hsource. fold source in Hsource.
    assert (Hrest : forall (rc0 : request_call) (v0 : value),
              settle (next net draw n key (S k) (without source (s0 :: rest)))
                = Fulfilled v ->
              not_nullish v = true /\
              exists s rc, In s (s0 :: rest) /\
                routeRequest n s "storage" (VStr key) = Return rc /\
                net rc = Fulfilled v).
    { intros rc0 v0 Hnext. destruct (H rc0 v0 v Hnext) as (Hnn & s & rc & Hs & Hrc).
      split; [exact Hnn|]. exists s, rc. split; [|exact Hrc].
      now apply without_In_iff in Hs. }
    destruct (routeRequest n source "storage" (VStr key)) as [rc|exn] eqn:Hrc;
      [|discriminate Hv].
    cbn [settle] in Hv. unfold then_ in Hv.
    destruct (net rc) as [|w|r] eqn:Hnet; [discriminate Hv| |].
    + destruct (not_nullish w) eqn:Hw.
      * cbn [settle] in Hv. injection Hv as <-. split; [exact Hw|].
        exists source, rc. now repeat split.
      * now apply (Hrest rc w).
    + now apply (Hrest rc r).
Qed.

(** X9: a value [findInStorage] is fulfilled with is never [null] or
    [undefined], and it is what the nest's own storage holds or what a
    request for the key, sent for another nest of its table, was answered
    with. *)
Theorem findInStorage_sound (net : network_behaviour) (draw : nat -> nat)
    (n : nest) (key : string) (v : value) :
  findInStorage net draw n key = Fulfilled v ->
  not_nullish v = true /\
  (v = readStorage n key \/
   exists s rc, In s (network n) /\ s <> name n /\
     routeRequest n s "storage" (VStr key) = Return rc /\ net rc = Fulfilled v).
Proof.
  unfold findInStorage, storage, findInRemoteStorage. cbn [then_].
  destruct (not_nullish (readStorage n key)) eqn:Hlocal.
  - cbn [settle]. intros [= <-]. split; [exact Hlocal|now left].
  - intros Hv. apply next_sound in Hv.
    destruct Hv as (Hnn & s & rc & Hs & Hrc & Hnet).
    split; [exact Hnn|]. right. exists s, rc.
    apply without_In_iff in Hs. now repeat split.
Qed.

Lemma findInStorage_sound_witness :
  not_nullish (VStr "42") = true /\
  (VStr "42" = readStorage nest_a "x" \/
   exists s rc, In s (network nest_a) /\ s <> name nest_a /\
     routeRequest nest_a s "storage" (VStr "x") = Return rc /\
     d_holds_42 rc = Fulfilled (VStr "42")).
Proof.
  apply (findInStorage_sound d_holds_42 (fun _ => 2) nest_a "x" (VStr "42")).
  unfold findInStorage, findInRemoteStorage. simpl. simp next. reflexivity.
Defined.

(** With every candidate routable and every request settled, [next] finds
    a value as long as a candidate holds one. *)
Lemma next_finds (net : network_behaviour) (draw : nat -> nat) (n : nest)
    (key : string) (k : nat) (sources : list string) :
  (forall s, In s sources ->
     exists rc, routeRequest n s "storage" (VStr key) = Return rc /\
                net rc <> Pending) ->
  (exists s rc v, In s sources /\
     routeRequest n s "storage" (VStr key) = Return rc /\
     net rc = Fulfilled v /\ not_nullish v = true) ->
  exists v, settle (next net draw n key k sources) = Fulfilled v.
Proof.
  funelim (next net draw n key k sources); intros Hall Hsome.
  - destruct Hsome as (s & _ & _ & [] & _).
  - set (source := nth _ (s0 :: rest) s0) in *.
    pose proof (pick_In draw k s0 rest) as Hsource. fold source in Hsource.
    destruct (Hall source Hsource) as (rc & Hrc & Hsettled).
    rewrite Hrc. cbn [settle]. unfold then_.
    assert (Hrest : (forall w, net rc = Fulfilled w -> not_nullish w = false) ->
              exists v, settle (next net draw n key (S k)
                                  (without source (s0 :: rest))) = Fulfilled v).
    { intros Hnone. apply (H rc VNull).
      - intros s Hs. apply Hall. now apply without_In_iff in Hs.
      - destruct Hsome as (s & rc' & v & Hs & Hrc' & Hnet & Hv).
        exists s, rc', v. repeat split; try assumption.
        apply without_In_iff. split; [exact Hs|].
        intros ->. rewrite Hrc in Hrc'. injection Hrc' as <-.
        rewrite (Hnone v Hnet) in Hv. discriminate. }
    destruct (net rc) as [|w|r] eqn:Hnet; [congruence| |].
    + destruct (not_nullish w) eqn:Hw.
      * exists w. reflexivity.
      * apply Hrest. intros w' [= <-]. exact Hw.
    + apply Hrest. intros w' Hw'. discriminate Hw'.
Qed.

(** X10: when every other nest of the table can be routed to and every
    request settles, a key that the nest does not hold itself and that
    some of them hold, all with the same value, is found with that value,
    whatever the random order of the candidates. *)
Theorem findInStorage_finds (net : network_behaviour) (draw : nat -> nat)
    (n : nest) (key : string) (v : value) :
  not_nullish (readStorage n key) = false ->
  (forall s, In s (network n) -> s <> name n ->
     exists rc, routeRequest n s "storage" (VStr key) = Return rc /\
                net rc <> Pending) ->
  (exists s rc, In s (network n) /\ s <> name n /\
     routeRequest n s "storage" (VStr key) = Return rc /\
     net rc = Fulfilled v /\ not_nullish v = true) ->
  (forall s rc w, In s (network n) ->
     routeRequest n s "storage" (VStr key) = Return rc ->
     net rc = Fulfilled w -> not_nullish w = true -> w = v) ->
  findInStorage net draw n key = Fulfilled v.
Proof.
  intros Hlocal Hall Hsome Hsame.
  unfold findInStorage, storage, findInRemoteStorage. cbn [then_].
  rewrite Hlocal.
  destruct (next_finds net draw n key 0 (without (name n) (network n)))
    as (w & Hw).
  - intros s Hs. apply without_In_iff in Hs. now apply Hall.
  - destruct Hsome as (s & rc & Hs & Hne & Hrc & Hnet & Hv).
    exists s, rc, v. repeat split; try assumption.
    now apply without_In_iff.
  - rewrite Hw. f_equal.
    destruct (next_sound _ _ _ _ _ _ _ Hw) as (Hnn & s & rc & Hs & Hrc & Hnet).
    apply without_In_iff in Hs. now apply (Hsame s rc w).
Qed.

Lemma nest_a_candidates (s : string) :
  In s (network nest_a) -> s <> name nest_a ->
  s = "B" \/ s = "C" \/ s = "D".
Proof.
  simpl. intros [<-|[<-|[<-|[<-|[]]]]] Hne; tauto.
Qed.

Lemma findInStorage_finds_witness :
  findInStorage d_holds_42 (fun k => 7 * k + 1) nest_a "x" = Fulfilled (VStr "42").
Proof.
  apply (findInStorage_finds d_holds_42 (fun k => 7 * k + 1) nest_a "x" (VStr "42")).
  - reflexivity.
  - intros s Hs Hne.
    destruct (nest_a_candidates s Hs Hne) as [-> | [-> | ->]];
      eexists; (split; [reflexivity|discriminate]).
  - exists "D", (RequestCall "A" "B" "route" (VRoute "D" "storage" (VStr "x"))).
    split; [simpl; tauto|]. split; [discriminate|].
    split; [reflexivity|]. split; reflexivity.
  - intros s rc w Hs Hrc Hnet Hw. simpl in Hs.
    destruct Hs as [<-|[<-|[<-|[<-|[]]]]]; vm_compute in Hrc;
      injection Hrc as <-; vm_compute in Hnet; injection Hnet as <-;
      try reflexivity; discriminate Hw.
Defined.

(** X11: when every other nest of the table can be routed to and every
    request settles, a key the nest does not hold itself is reported as
    not found, whatever the random order of the candidates, exactly when
    every one of these requests fails or brings [null] or [undefined]: a
    rejected request is passed over, and no candidate that holds a value
    is left out. *)
Theorem findInStorage_not_found (net : network_behaviour) (draw : nat -> nat)
    (n : nest) (key : string) :
  not_nullish (readStorage n key) = false ->
  (forall s, In s (network n) -> s <> name n ->
     exists rc, routeRequest n s "storage" (VStr key) = Return rc /\
                net rc <> Pending) ->
  (findInStorage net draw n key = Rejected NotFound <->
   forall s rc, In s (network n) -> s <> name n ->
     routeRequest n s "storage" (VStr key) = Return rc -> no_answer (net rc)).
Proof.
  intros Hlocal Hall. split.
  - intros Hnot s rc Hs Hne Hrc.
    destruct (net rc) as [|v|reason] eqn:Hnet; simpl.
    + destruct (Hall s Hs Hne) as (rc' & Hrc' & Hsettled).
      rewrite Hrc in Hrc'. injection Hrc' as <-. now apply Hsettled.
    + destruct (not_nullish v) eqn:Hv; [exfalso|reflexivity].
      destruct (next_finds net draw n key 0 (without (name n) (network n)))
        as (w & Hw).
      * intros s' Hs'. apply without_In_iff in Hs'. now apply Hall.
      * exists s, rc, v. repeat split; try assumption.
        now apply without_In_iff.
      * revert Hnot. unfold findInStorage, storage, findInRemoteStorage.
        cbn [then_]. rewrite Hlocal, Hw. discriminate.
    + exact I.
  - intros Hnone.
    unfold findInStorage, storage, findInRemoteStorage. cbn [then_].
    rewrite Hlocal. rewrite next_exhausts; [reflexivity|].
    intros s Hs. apply without_In_iff in Hs. destruct Hs as [Hs Hne].
    destruct (Hall s Hs Hne) as (rc & Hrc & _).
    exists rc. split; [exact Hrc|]. now apply (Hnone s rc).
Qed.

Lemma findInStorage_not_found_witness :
  findInStorage silent_network (fun k => 3 * k) nest_a "x" = Rejected NotFound /\
  (findInStorage d_holds_42 (fun k => 3 * k) nest_a "x" = Rejected NotFound ->
   False).
Proof.
  split.
  - apply (findInStorage_not_found silent_network (fun k => 3 * k) nest_a "x").
    + reflexivity.
    + intros s Hs Hne.
      destruct (nest_a_candidates s Hs Hne) as [-> | [-> | ->]];
        eexists; (split; [reflexivity|discriminate]).
    + intros s rc _ _ _. exact I.
  - intros Hnot.
    assert (Hall : forall s, In s (network nest_a) -> s <> name nest_a ->
              exists rc, routeRequest nest_a s "storage" (VStr "x") = Return rc /\
                         d_holds_42 rc <> Pending).
    { intros s Hs Hne.
      destruct (nest_a_candidates s Hs Hne) as [-> | [-> | ->]];
        eexists; (split; [reflexivity|discriminate]). }
    assert (Hd : no_answer (d_holds_42
                   (RequestCall "A" "B" "route" (VRoute "D" "storage" (VStr "x"))))).
    { apply (proj1 (findInStorage_not_found d_holds_42 (fun k => 3 * k) nest_a "x"
                      eq_refl Hall) Hnot "D").
      - simpl. tauto.
      - discriminate.
      - reflexivity. }
    discriminate Hd.
Defined.

(** ** [Promise_all]: what its outcome tells *)

Lemma first_rejected (promises : list (promise value)) (order : list nat) :
  (forall j, In j order -> is_rejected (nth_error promises j) = false) \/
  exists before i after reason,
    order = before ++ i :: after /\
    nth_error promises i = Some (Rejected reason) /\
    forall j, In j before -> is_rejected (nth_error promises j) = false.
Proof.
  induction order as [|i order IH].
  - left. intros j [].
  - destruct (is_rejected (nth_error promises i)) eqn:Hi.
    + right. destruct (nth_error promises i) as [[|v|reason]|] eqn:Hp;
        try discriminate Hi.
      exists [], i, order, reason.
      split; [reflexivity|]. split; [exact Hp|]. intros j [].
    + destruct IH as [Hnone|(before & i' & after & reason & -> & Hp & Hbefore)].
      * left. intros j [<-|Hj]; [exact Hi|now apply Hnone].
      * right. exists (i :: before), i', after, reason.
        split; [reflexivity|]. split; [exact Hp|].
        intros j [<-|Hj]; [exact Hi|now apply Hbefore].
Qed.

Lemma fulfilled_before_rejected (promises : list (promise value))
    (before : list nat) (i : nat) (after : list nat) (reason : value) :
  List.NoDup (before ++ i :: after) ->
  nth_error promises i = Some (Rejected reason) ->
  length (fulfilled_in promises before) < length promises.
Proof.
  intros Hnd Hi.
  assert (Hnd2 : List.NoDup (i :: fulfilled_in promises before)).
  { constructor.
    - intros Hin. apply List.filter_In in Hin. destruct Hin as [Hin _].
      apply List.NoDup_remove_2 in Hnd. apply Hnd, in_or_app. now left.
    - apply List.NoDup_filter. now apply List.NoDup_app_remove_r in Hnd. }
  enough (length (i :: fulfilled_in promises before)
          <= length (seq 0 (length promises))) as H
    by (rewrite List.length_seq in H; simpl in H; lia).
  apply List.NoDup_incl_length; [exact Hnd2|].
  intros j [<-|Hj]; apply in_seq; split; try lia; simpl.
  - apply nth_error_Some. now rewrite Hi.
  - apply List.filter_In in Hj. destruct Hj as [_ Hj].
    apply nth_error_Some.
    destruct (nth_error promises j); [discriminate|discriminate Hj].
Qed.

(** The first rejection handled settles the promise. *)
Lemma Promise_all_rejected_by (promises : list (promise value))
    (before : list nat) (i : nat) (after : list nat) (reason : value) :
  List.NoDup (before ++ i :: after) ->
  nth_error promises i = Some (Rejected reason) ->
  (forall j, In j before -> is_rejected (nth_error promises j) = false) ->
  Promise_all promises (before ++ i :: after) = Rejected reason.
Proof.
  intros Hnd Hi Hbefore.
  assert (Hne : promises <> []) by (intros ->; now destruct i).
  pose proof (fulfilled_before_rejected promises before i after reason Hnd Hi) as Hlt.
  pose proof (all_run_fulfilled promises before Hne
                (List.NoDup_app_remove_r _ _ Hnd) Hbefore) as Hinv.
  cbv zeta in Hinv. destruct Hinv as (_ & Hset & _ & _).
  unfold Promise_all, Promise_all_run.
  destruct (Z.eqb_spec (Z.of_nat (length promises)) 0) as [Hz|_].
  { destruct promises; [congruence|simpl in Hz; lia]. }
  rewrite fold_left_app. cbn [fold_left].
  set (st0 := fold_left _ before _) in *.
  assert (Hst : settled (all_react promises i st0) = RejectedWith reason).
  { unfold all_react. rewrite Hi. cbn [settled]. rewrite Hset.
    destruct (Nat.eqb_spec (length (fulfilled_in promises before)) (length promises));
      [lia|reflexivity]. }
  rewrite all_react_settled_sticky; rewrite Hst; [reflexivity|discriminate].
Qed.

(** X12: with each callback run at most once, [Promise_all] is fulfilled
    only when every input promise is fulfilled, and then with all their
    values, in the order of the promises and without a gap; and it is
    rejected only with the reason of an input promise that was rejected. *)
Theorem Promise_all_outcome (promises : list (promise value)) (order : list nat) :
  List.NoDup order ->
  (forall arr, Promise_all promises order = Fulfilled arr ->
     exists values, promises = map Fulfilled values /\ arr = map Some values) /\
  (forall reason, Promise_all promises order = Rejected reason ->
     exists i, In i order /\ nth_error promises i = Some (Rejected reason)).
Proof.
  intros Hnd.
  destruct promises as [|p0 promises'] eqn:Hp.
  { split.
    - intros arr [= <-]. now exists [].
    - intros reason Hr. discriminate Hr. }
  rewrite <- Hp in *.
  assert (Hne : promises <> []) by (subst promises; discriminate).
  destruct (first_rejected promises order)
    as [Hnone|(before & i & after & reason & -> & Hi & Hbefore)].
  - pose proof (all_run_fulfilled promises order Hne Hnd Hnone) as Hinv.
    cbv zeta in Hinv. destruct Hinv as (_ & Hset & Hget & Hlen).
    assert (Hrun : Promise_all_run promises order
                   = fold_left (fun st i => all_react promises i st) order
                       (AllState [] (Z.of_nat (length promises)) NotSettled)).
    { unfold Promise_all_run.
      destruct (Z.eqb_spec (Z.of_nat (length promises)) 0) as [Hz|_];
        [|reflexivity].
      destruct promises; [congruence|simpl in Hz; lia]. }
    unfold Promise_all. rewrite Hrun, Hset.
    destruct (Nat.eqb_spec (length (fulfilled_in promises order)) (length promises))
      as [Hall|_]; split; try discriminate.
    intros arr [= <-].
    assert (Hevery : forall j, j < length promises ->
              In j order /\ exists v, nth_error promises j = Some (Fulfilled v)).
    { intros j Hj.
      assert (Hin : In j (fulfilled_in promises order)).
      { apply (List.NoDup_length_incl (l := fulfilled_in promises order)
                 (l' := seq 0 (length promises))).
        - now apply List.NoDup_filter.
        - rewrite List.length_seq. lia.
        - intros x Hx. apply List.filter_In in Hx. destruct Hx as [_ Hx].
          apply in_seq. split; [lia|]. simpl. apply nth_error_Some.
          destruct (nth_error promises x); [discriminate|discriminate Hx].
        - apply in_seq. lia. }
      apply List.filter_In in Hin. destruct Hin as [Hin Hf]. split; [exact Hin|].
      destruct (nth_error promises j) as [[|v|r]|]; try discriminate Hf.
      now exists v. }
    exists (map (fun p => match p with Fulfilled v => v | _ => VUndefined end)
              promises).
    split.
    + apply List.nth_error_ext. intros j. rewrite !nth_error_map.
      destruct (nth_error promises j) as [p|] eqn:Hpj; [|reflexivity].
      assert (Hj : j < length promises) by (apply nth_error_Some; congruence).
      destruct (Hevery j Hj) as (_ & v & Hv). rewrite Hpj in Hv.
      injection Hv as ->. reflexivity.
    + apply List.nth_error_ext. intros j. rewrite !nth_error_map.
      destruct (nth_error promises j) as [p|] eqn:Hpj.
      * assert (Hj : j < length promises) by (apply nth_error_Some; congruence).
        destruct (Hevery j Hj) as (Hin & v & Hv). rewrite Hpj in Hv.
        injection Hv as ->. cbn.
        specialize (Hget j). unfold array_get in Hget.
        destruct (in_dec Nat.eq_dec j order) as [_|Hout]; [|contradiction].
        rewrite Hpj in Hget. cbn in Hget.
        match type of Hget with
        | match nth_error ?r j with _ => _ end = _ =>
            destruct (nth_error r j) as [[w|]|]; congruence
        end.
      * cbn. apply nth_error_None. apply nth_error_None in Hpj. lia.
  - rewrite (Promise_all_rejected_by promises before i after reason Hnd Hi Hbefore).
    split; [discriminate|].
    intros reason' [= <-]. exists i. split; [|exact Hi].
    apply in_or_app. right. now left.
Qed.

Lemma Promise_all_outcome_witness :
  exists values,
    [Fulfilled (VStr "a"); Fulfilled (VStr "b")] = map Fulfilled values /\
    [Some (VStr "a"); Some (VStr "b")] = map Some values.
Proof.
  assert (Hnd : List.NoDup [1; 0])
    by (repeat constructor; simpl; intuition discriminate).
  apply (proj1 (Promise_all_outcome [Fulfilled (VStr "a"); Fulfilled (VStr "b")]
                  [1; 0] Hnd)).
  reflexivity.
Defined.

(** ** [availableNeighbors] *)

Lemma filter_by_index_map (f : string -> bool) (l : list string) :
  forall before : list bool,
    filter_by_index l (before ++ map f l) (length before) = List.filter f l.
Proof.
  induction l as [|x l IH]; intros before; [reflexivity|].
  cbn [filter_by_index map List.filter].
  rewrite app_nth2, Nat.sub_diag by lia. cbn [nth].
  specialize (IH (before ++ [f x])).
  rewrite <- app_assoc, length_app, Nat.add_1_r in IH. cbn [app] in IH.
  rewrite IH. reflexivity.
Qed.

Lemma all_values_settled (net : network_behaviour) (n : nest) (l : list string) :
  (forall x, In x l -> net (request n x "ping" VUndefined) <> Pending) ->
  all_values (map (fun x => answered (net (request n x "ping" VUndefined))) l)
  = Some (map (ping_answered net n) l).
Proof.
  induction l as [|x l IH]; intros Hall; [reflexivity|].
  cbn [map all_values]. unfold ping_answered at 1.
  pose proof (Hall x (or_introl eq_refl)) as Hx.
  destruct (net (request n x "ping" VUndefined)); [congruence| |];
    cbn [answered]; rewrite IH by (intros y Hy; apply Hall; now right);
    reflexivity.
Qed.

Lemma all_values_pending (net : network_behaviour) (n : nest) (l : list string)
    (x : string) :
  In x l -> net (request n x "ping" VUndefined) = Pending ->
  all_values (map (fun x => answered (net (request n x "ping" VUndefined))) l)
  = None.
Proof.
  induction l as [|y l IH]; intros Hin Hx; [contradiction|].
  cbn [map all_values].
  destruct Hin as [->|Hin].
  - now rewrite Hx.
  - destruct (answered _); [|reflexivity]. now rewrite IH.
Qed.

(** X13: [availableNeighbors] never rejects; it stays pending while a
    ["ping"] is pending, and once every ["ping"] is settled it is
    fulfilled with the neighbours whose ["ping"] was answered, as often
    and in the order in which the nest lists them. *)
Theorem availableNeighbors_answered (net : network_behaviour) (n : nest) :
  (forall reason, availableNeighbors net n <> Rejected reason) /\
  (forall x, In x (neighbors n) ->
     net (request n x "ping" VUndefined) = Pending ->
     availableNeighbors net n = Pending) /\
  ((forall x, In x (neighbors n) ->
      net (request n x "ping" VUndefined) <> Pending) ->
   availableNeighbors net n
   = Fulfilled (List.filter (ping_answered net n) (neighbors n))).
Proof.
  unfold availableNeighbors. split; [|split].
  - intros reason. now destruct (all_values _).
  - intros x Hin Hx. now rewrite (all_values_pending net n _ x Hin Hx).
  - intros Hall. rewrite (all_values_settled net n _ Hall).
    f_equal. exact (filter_by_index_map (ping_answered net n) (neighbors n) []).
Qed.

Lemma availableNeighbors_answered_witness :
  availableNeighbors c_is_down nest_b = Fulfilled ["A"].
Proof.
  apply (proj2 (proj2 (availableNeighbors_answered c_is_down nest_b))).
  intros x [<-|[<-|[]]]; discriminate.
Defined.

(** ** [chicks] *)

Lemma first_throw_none (net : network_behaviour) (n : nest) (key : string)
    (l : list string) :
  (forall name0, In name0 l ->
     exists v, anyStorage net n name0 key = Return (Fulfilled v)) ->
  first_throw (map (fun name0 => anyStorage net n name0 key) l) = None.
Proof.
  induction l as [|x l IH]; intros Hall; [reflexivity|].
  cbn [map first_throw].
  destruct (Hall x (or_introl eq_refl)) as (v & ->).
  apply IH. intros y Hy. apply Hall. now right.
Qed.

Lemma chicks_resume_all (net : network_behaviour) (n : nest) (year : nat)
    (order : list nat) :
  (forall name0, In name0 (network n) ->
     exists v, anyStorage net n name0 (chicks_key year) = Return (Fulfilled v)) ->
  (forall i, In i order -> i < length (network n)) ->
  forall st,
    let st' := fold_left (fun st i => chicks_resume net n year i st) order st in
    finished st' = finished st + length order /\ failed st' = failed st.
Proof.
  intros Hall. induction order as [|i order IH]; intros Hrange st; cbv zeta.
  - cbn. split; [lia|reflexivity].
  - cbn [fold_left].
    assert (Hi : i < length (network n)) by (apply Hrange; now left).
    destruct (nth_error (network n) i) as [name0|] eqn:Hname;
      [|apply nth_error_None in Hname; lia].
    destruct (Hall name0 (nth_error_In _ _ Hname)) as (v & Hv).
    destruct (IH (fun j Hj => Hrange j (or_intror Hj))
                (chicks_resume net n year i st)) as [Hfin Hfail].
    rewrite Hfin, Hfail. unfold chicks_resume. rewrite Hname, Hv.
    cbn [finished failed length]. split; [lia|reflexivity].
Qed.

(** X14: when every nest of the table answers, [chicks] is fulfilled with
    one line only, that of the nest whose answer came last: each callback
    read the empty [list] before its [await], so every line written
    replaces the ones before. *)
Theorem chicks_keeps_last_line (net : network_behaviour) (n : nest) (year : nat)
    (order : list nat) (last : nat) (name0 : string) (v : value) :
  (forall x, In x (network n) ->
     exists w, anyStorage net n x (chicks_key year) = Return (Fulfilled w)) ->
  Permutation (order ++ [last]) (seq 0 (length (network n))) ->
  nth_error (network n) last = Some name0 ->
  anyStorage net n name0 (chicks_key year) = Return (Fulfilled v) ->
  chicks net n year (order ++ [last]) = Fulfilled (chick_line name0 v).
Proof.
  intros Hall Hperm Hlast Hv. unfold chicks.
  rewrite (first_throw_none net n (chicks_key year) (network n) Hall).
  rewrite fold_left_app. cbn [fold_left].
  set (st := fold_left _ order _).
  assert (Hrange : forall i, In i order -> i < length (network n)).
  { intros i Hi.
    assert (Hin : In i (seq 0 (length (network n)))).
    { eapply Permutation_in; [exact Hperm|]. apply in_or_app. now left. }
    apply in_seq in Hin. lia. }
  destruct (chicks_resume_all net n year order Hall Hrange
              (ChicksState list_at_map 0 None)) as [Hfin Hfail].
  fold st in Hfin, Hfail. cbn [finished failed] in Hfin, Hfail.
  unfold chicks_resume. rewrite Hlast, Hv. cbn [failed finished list_binding].
  apply Permutation_length in Hperm.
  rewrite length_app, List.length_seq in Hperm. cbn [length] in Hperm.
  assert (Hn : S (finished st) = length (network n)) by lia.
  rewrite Hfail, Hn, Nat.eqb_refl. reflexivity.
Qed.

Lemma chicks_keeps_last_line_witness :
  chicks d_holds_42 nest_a 2017 ([3; 0; 1] ++ [2])
  = Fulfilled (chick_line "C" VNull).
Proof.
  apply (chicks_keeps_last_line d_holds_42 nest_a 2017 [3; 0; 1] 2 "C" VNull).
  - intros x Hx. simpl in Hx.
    destruct Hx as [<-|[<-|[<-|[<-|[]]]]]; eexists; reflexivity.
  - simpl.
    apply (perm_trans (l' := [0; 3; 1; 2])); [apply perm_swap|].
    apply perm_skip.
    apply (perm_trans (l' := [1; 3; 2])); [apply perm_swap|].
    apply perm_skip. apply perm_swap.
  - reflexivity.
  - reflexivity.
Defined.
